(** * Subject extraction and canvas compositing: a verification of
    [src/index.mjs]

    The program removes the background of a photograph, finds the box and
    the alpha-weighted centroid of what is left, crops to the box, scales
    the crop into a padded square and pastes it on a transparent canvas,
    which it encodes as WebP.  The definitions below follow the source
    function by function; the theorems follow the definitions. *)

From Stdlib Require Import ZArith QArith Qpower Qround Qabs Lia Lqa Ascii String.
From Stdlib Require Import PrimFloat FloatOps SpecFloat.
From stdpp Require Import base option list strings gmap.

(** * JavaScript numbers

    Every JavaScript [Number] is an IEEE 754 binary64 value.  All finite
    binary64 values are dyadic rationals, so a Number is modelled by a
    rational [Q] and every arithmetic operation is the exact operation
    followed by [round64], rounding to the nearest binary64 value (ties to
    even, 53 bits of precision, gradual underflow below 2^-1022).
    Integer-valued Numbers that the program only counts with (pixel
    coordinates, image dimensions, the alpha sums) are modelled by [Z]; they
    are exact in binary64 while below 2^53.  NaN and the infinities have no
    counterpart here: the program divides only by image dimensions and by a
    sum of alpha weights, and its values stay far below 2^1024.  The two
    zeros of binary64 are identified. *)
Module Binary64.

Open Scope Q_scope.

  (** Position of the leading bit of a positive rational:
      [2 ^ ilog2 a <= a < 2 ^ (ilog2 a + 1)]. *)
Definition ilog2 (a : Q) : Z :=
    let e0 := (Z.log2 (Qnum a) - Z.log2 (Zpos (Qden a)))%Z in
    if Qle_bool (2 ^ e0) a then e0 else (e0 - 1)%Z.

  (** Nearest integer, ties to the even one. *)
Definition roundHalfEven (m : Q) : Z :=
    let f := Qfloor m in
    match Qcompare (m - inject_Z f) (1 # 2) with
    | Lt => f
    | Gt => (f + 1)%Z
    | Eq => if Z.even f then f else (f + 1)%Z
    end.

  (** Exponent of the unit in the last place of a positive value. *)
Definition ulp_exp (a : Q) : Z := Z.max (ilog2 a - 52) (-1074).

Definition round_pos (a : Q) : Q :=
    let e := ulp_exp a in
    inject_Z (roundHalfEven (a / 2 ^ e)) * 2 ^ e.

Definition round64 (x : Q) : Q :=
    match Qnum x with
    | Z0 => 0
    | Zpos _ => round_pos x
    | Zneg _ => - round_pos (- x)
    end.

Definition add (x y : Q) : Q := round64 (x + y).
Definition sub (x y : Q) : Q := round64 (x - y).
Definition mul (x y : Q) : Q := round64 (x * y).
Definition div (x y : Q) : Q := round64 (x / y).

  (** [Math.floor], [Math.round] (ties towards +infinity), [Math.min] and
      [Math.max] are exact. *)
Definition Math_floor (x : Q) : Z := Qfloor x.
Definition Math_round (x : Q) : Z := Qfloor (x + (1 # 2)).
Definition Math_min (x y : Q) : Q := if Qle_bool x y then x else y.
Definition Math_max (x y : Q) : Q := if Qle_bool x y then y else x.

  (** The rational a finite primitive float stands for; used to compare
      [round64] with the kernel's own binary64 arithmetic. *)
Definition float_to_Q (f : float) : option Q :=
    match Prim2SF f with
    | S754_zero _ => Some 0
    | S754_finite s m e =>
        Some ((if s then -1 else 1) * inject_Z (Zpos m) * 2 ^ e)
    | _ => None
    end.

End Binary64.

Import Binary64.

(** * Exceptions

    A rejected promise or a thrown exception is [Throw]; [await] of a
    fulfilled promise is [Ok]. *)
Inductive result (A : Type) : Type :=
  | Ok (a : A)
  | Throw (msg : string).
Arguments Ok {A} a.
Arguments Throw {A} msg.

#[global] Instance result_ret : MRet result := fun A a => Ok a.
#[global] Instance result_bind : MBind result := fun A B f m =>
  match m with
  | Ok a => f a
  | Throw msg => Throw msg
  end.

(** * Configuration (lines 7-20): the values parsed from the environment
    once, at start-up. *)
Record Config := {
  SIZE : Z;
  PADDING_PCT : Q;
  V_BIAS_PCT : Q;
  ALPHA_THRESH : Z;
  HQ : bool;
  SMOOTH_THRESH : Z;
  SMOOTH_BLUR : Q
}.

(** The configuration when no environment variable is set. *)
Definition default_config : Config := {|
  SIZE := 2000;
  PADDING_PCT := round64 (5 # 100);
  V_BIAS_PCT := 0;
  ALPHA_THRESH := 16;
  HQ := false;
  SMOOTH_THRESH := 180;
  SMOOTH_BLUR := round64 (12 # 10)
|}.

(** [process.env]: a finite map from variable names to strings. *)
Abbreviation Env := (gmap string string).

(** [process.env.NAME || dflt]: an unset or empty variable gives [dflt]. *)
Definition env_or (env : Env) (name dflt : string) : string :=
  match env !! name with
  | Some s => if String.eqb s "" then dflt else s
  | None => dflt
  end.

Definition is_space (c : ascii) : bool :=
  let n := N_of_ascii c in
  (n =? 32)%N || ((9 <=? n)%N && (n <=? 13)%N).

Definition digit_of (c : ascii) : option Z :=
  let n := N_of_ascii c in
  if ((48 <=? n)%N && (n <=? 57)%N)%bool then Some (Z.of_N n - 48)%Z else None.

Fixpoint skip_spaces (s : string) : string :=
  match s with
  | String c s' => if is_space c then skip_spaces s' else s
  | EmptyString => EmptyString
  end.

Fixpoint parse_digits (acc : option Z) (s : string) : option Z :=
  match s with
  | String c s' =>
      match digit_of c with
      | Some d => parse_digits (Some (10 * default 0 acc + d)%Z) s'
      | None => acc
      end
  | EmptyString => acc
  end.

(** [parseInt(s, 10)]: leading white space, an optional sign, then the
    longest run of decimal digits; [None] stands for NaN. *)
Definition parseInt (s : string) : option Z :=
  match skip_spaces s with
  | String "-"%char s' => Z.opp <$> parse_digits None s'
  | String "+"%char s' => parse_digits None s'
  | s' => parse_digits None s'
  end.

(** * Images

    A decoded image: its dimensions, its number of channels and its pixels
    in row-major order, each pixel being the list of its channel bytes
    (R, G, B, A for an RGBA image).  PNG is lossless, so a PNG buffer is
    identified with the image it decodes to. *)
Definition Pixel := list Z.

Record Image := {
  width : Z;
  height : Z;
  channels : Z;
  pixels : list Pixel
}.

(** [a[i]] on a JavaScript array or typed array: [None] is [undefined]. *)
Definition at_index {A} (l : list A) (i : Z) : option A :=
  if (i <? 0)%Z then None else l !! Z.to_nat i.

Definition pixel_at (img : Image) (x y : Z) : option Pixel :=
  if ((0 <=? x) && (x <? width img) && (0 <=? y) && (y <? height img))%Z
  then at_index (pixels img) (y * width img + x)
  else None.

(** What the decoder guarantees of an 8-bit image. *)
Definition well_formed (img : Image) : Prop :=
  (1 <= width img)%Z /\ (1 <= height img)%Z /\ (1 <= channels img)%Z /\
  Z.of_nat (length (pixels img)) = (width img * height img)%Z /\
  Forall (fun p => Z.of_nat (length p) = channels img /\
                   Forall (fun b => (0 <= b <= 255)%Z) p) (pixels img).

Definition transparent : Pixel := [0; 0; 0; 0]%Z.

(** ** The operations of the image library that the program calls

    The library (sharp, over libvips) is not part of the repository; its
    operations are modelled as its documentation describes them.  The
    resampling kernel of [resize], the blending of [composite] and the
    processing of an instance on which several pixel operations were
    requested are parameters of the definitions that use them. *)
Module Sharp.

  (** [extractChannel(k).raw().toBuffer()]: one byte per pixel. *)
Definition extractChannel (k : Z) (img : Image) : result (list Z) :=
    if (channels img <=? k)%Z
    then Throw "Cannot extract channel from image. Too few channels in image."
    else match mapM (fun p : Pixel => at_index p k) (pixels img) with
         | Some bytes => Ok bytes
         | None => Throw "Input buffer contains unsupported image format"
         end.

Definition hasAlpha (img : Image) : bool :=
    ((channels img =? 2) || (channels img =? 4))%Z.

  (** [ensureAlpha()]: adds an opaque alpha channel when there is none. *)
Definition ensureAlpha (img : Image) : Image :=
    if hasAlpha img then img
    else {| width := width img; height := height img;
            channels := channels img + 1;
            pixels := (fun p => p ++ [255%Z]) <$> pixels img |}.

  (** [extract({left, top, width, height})]. *)
Definition extract (left top w h : Z) (img : Image) : result Image :=
    if ((left <? 0) || (top <? 0) || (w <? 1) || (h <? 1) ||
        (width img <? left + w) || (height img <? top + h))%Z
    then Throw "extract_area: bad extract area"
    else Ok {| width := w; height := h; channels := channels img;
               pixels := y ← seqZ top h;
                         take (Z.to_nat w)
                              (drop (Z.to_nat (y * width img + left)) (pixels img)) |}.

  (** [resize(nw, nh)]: an image of exactly [nw] by [nh] pixels; pixel [i]
      of the result is given by the resampling kernel. *)
Definition resize (resample : Image -> Z -> Z -> Z -> Pixel)
      (nw nh : Z) (img : Image) : Image :=
    {| width := nw; height := nh; channels := channels img;
       pixels := resample img nw nh <$> seqZ 0 (nw * nh) |}.

  (** [sharp({create: {width, height, channels, background}})]. *)
Definition create (w h c : Z) (background : Pixel) : result Image :=
    if ((w <? 1) || (h <? 1))%Z
    then Throw "Expected positive integer for create.width or create.height"
    else Ok {| width := w; height := h; channels := c;
               pixels := replicate (Z.to_nat (w * h)) background |}.

  (** [canvas.composite([{input, left, top}])]: the overlay must fit the
      canvas; it is clipped where the offset puts it outside. *)
Definition composite (over : Pixel -> Pixel -> Pixel)
      (canvas overlay : Image) (left top : Z) : result Image :=
    if ((width canvas <? width overlay) || (height canvas <? height overlay))%Z
    then Throw "Image to composite must have same dimensions or smaller"
    else Ok {| width := width canvas; height := height canvas;
               channels := channels canvas;
               pixels :=
                 (fun i : Z =>
                    let x := (i `mod` width canvas)%Z in
                    let y := (i `div` width canvas)%Z in
                    let below := default [] (pixel_at canvas x y) in
                    match pixel_at overlay (x - left) (y - top) with
                    | Some p => over below p
                    | None => below
                    end) <$> seqZ 0 (width canvas * height canvas) |}.

End Sharp.

(** * Alpha analyzer (lines 42-77) *)

(** The loop variables [x0, y0, x1, y1, sumA, sumX, sumY]. *)
Record Acc := {
  x0 : Z; y0 : Z; x1 : Z; y1 : Z;
  sumA : Z; sumX : Z; sumY : Z
}.

Module Analysis.
Record t := { bbox : Z * Z * Z * Z; cx : Q; cy : Q; w : Z; h : Z }.
End Analysis.

Module Centroid.
Record t := { cx : Q; cy : Q }.
End Centroid.

Section Analyzer.
Open Scope Z_scope.
Variable thresh : Z.   (* ALPHA_THRESH *)
Variable a : list Z.   (* the raw alpha channel *)
Variable w : Z.

  (** Body of the inner loop (lines 59-68); [undefined > thresh] is false. *)
Definition scan_pixel (y : Z) (acc : Acc) (x : Z) : Acc :=
    let row := y * w in
    match at_index a (row + x) with
    | Some alpha =>
        if thresh <? alpha then
          {| x0 := if x <? x0 acc then x else x0 acc;
             y0 := if y <? y0 acc then y else y0 acc;
             x1 := if x1 acc <? x then x else x1 acc;
             y1 := if y1 acc <? y then y else y1 acc;
             sumA := sumA acc + alpha;
             sumX := sumX acc + alpha * x;
             sumY := sumY acc + alpha * y |}
        else acc
    | None => acc
    end.

  (** [for (let x = 0; x < w; x++)] *)
Definition scan_row (acc : Acc) (y : Z) : Acc :=
    foldl (scan_pixel y) acc (seqZ 0 w).

  (** [for (let y = 0; y < h; y++)] *)
Definition scan (h : Z) : Acc :=
    foldl scan_row
      {| x0 := w; y0 := h; x1 := -1; y1 := -1; sumA := 0; sumX := 0; sumY := 0 |}
      (seqZ 0 h).
End Analyzer.

Definition findAlphaBBoxAndCentroid (cfg : Config) (rgbaBuf : Image)
    : result (option Analysis.t) :=
  let w := width rgbaBuf in
  let h := height rgbaBuf in
  a ← Sharp.extractChannel 3 rgbaBuf;
  let acc := scan (ALPHA_THRESH cfg) a w h in
  if ((x1 acc <? x0 acc) || (y1 acc <? y0 acc))%Z then Ok None
  else
    Ok (Some {| Analysis.bbox := (x0 acc, y0 acc, x1 acc + 1, y1 acc + 1)%Z;
                Analysis.cx := div (inject_Z (sumX acc)) (inject_Z (sumA acc));
                Analysis.cy := div (inject_Z (sumY acc)) (inject_Z (sumA acc));
                Analysis.w := w; Analysis.h := h |}).

(** * Cropper (lines 179-199 of [processOne]): the crop handed to the
    compositor and the centroid in crop-local coordinates. *)
Definition cropSubject (cfg : Config) (noBg : Image)
    : result (Image * option Centroid.t) :=
  result ← findAlphaBBoxAndCentroid cfg noBg;
  match result with
  | Some r =>
      let '(bx0, by0, bx1, by1) := Analysis.bbox r in
      crop ← Sharp.extract bx0 by0 (bx1 - bx0) (by1 - by0) noBg;
      Ok (crop, Some {| Centroid.cx := sub (Analysis.cx r) (inject_Z bx0);
                        Centroid.cy := sub (Analysis.cy r) (inject_Z by0) |})
  | None => Ok (noBg, None)
  end.

(** * Canvas compositor (lines 125-173) *)
Record Layout := { nw : Z; nh : Z; left : Z; top : Z }.

Section Compositor.
Variable cfg : Config.
Variable padPct : Q.

  (** Line 130. *)
Definition maxContent : Q :=
    mul (inject_Z (SIZE cfg)) (sub 1 (mul padPct 2)).

  (** Line 131. *)
Definition scale (w h : Z) : Q :=
    Math_min (div maxContent (inject_Z w)) (div maxContent (inject_Z h)).

  (** Lines 133-149: the size of the resized crop and its offset. *)
Definition layout (w h : Z) (centroid : option Centroid.t) : Layout :=
    let scale := scale w h in
    let nw := Z.max 1 (Math_floor (mul (inject_Z w) scale)) in
    let nh := Z.max 1 (Math_floor (mul (inject_Z h) scale)) in
    let by_ := Math_round (mul (V_BIAS_PCT cfg) (inject_Z (SIZE cfg))) in
    match centroid with
    | Some c =>
        let cxScaled := mul (Centroid.cx c) scale in
        let cyScaled := mul (Centroid.cy c) scale in
        {| nw := nw; nh := nh;
           left := Math_round (sub (div (inject_Z (SIZE cfg)) 2) cxScaled);
           top := Math_round (add (sub (div (inject_Z (SIZE cfg)) 2) cyScaled)
                                  (inject_Z by_)) |}
    | None =>
        {| nw := nw; nh := nh;
           left := Z.max 0 (Math_floor (div (sub (inject_Z (SIZE cfg)) (inject_Z nw)) 2));
           top := Z.max 0 (Math_floor (add (div (sub (inject_Z (SIZE cfg)) (inject_Z nh)) 2)
                                           (inject_Z by_))) |}
    end.
End Compositor.

(** * Encoder (lines 164-171) *)
Record WebpOptions := {
  quality : option Z;
  alphaQuality : option Z;
  lossless : bool;
  smartSubsample : bool;
  effort : option Z;
  nearLossless : bool
}.

Definition webp_options (env : Env) : WebpOptions := {|
  quality := parseInt (env_or env "QUALITY" "82");
  alphaQuality := parseInt (env_or env "AQUALITY" "80");
  lossless := false;
  smartSubsample := true;
  effort := parseInt (env_or env "EFFORT" "6");
  nearLossless := false
|}.

(** A WebP file: the options it was encoded with and the image handed to
    the encoder.  A lossy WebP decodes to an image of the same dimensions. *)
Record WebPFile := { wp_options : WebpOptions; wp_image : Image }.

Definition in_range (lo hi : Z) (v : option Z) : bool :=
  match v with
  | Some n => ((lo <=? n) && (n <=? hi))%Z
  | None => false
  end.

(** [.webp(options).toBuffer()]: the library rejects a quality outside
    1..100, an alpha quality outside 0..100 and an effort outside 0..6. *)
Definition webp (o : WebpOptions) (img : Image) : result WebPFile :=
  if negb (in_range 1 100 (quality o)) then
    Throw "Expected integer between 1 and 100 for quality"
  else if negb (in_range 0 100 (alphaQuality o)) then
    Throw "Expected integer between 0 and 100 for alphaQuality"
  else if negb (in_range 0 6 (effort o)) then
    Throw "Expected integer between 0 and 6 for effort"
  else Ok {| wp_options := o; wp_image := img |}.

Section ToSquareWebP.
Variable resample : Image -> Z -> Z -> Z -> Pixel.
Variable over : Pixel -> Pixel -> Pixel.
Variable cfg : Config.
Variable env : Env.

Definition toSquareWebP (rgbaBuf : Image) (padPct : Q)
      (centroid : option Centroid.t) : result WebPFile :=
    let img := Sharp.ensureAlpha rgbaBuf in
    let l := layout cfg padPct (width img) (height img) centroid in
    canvas ← Sharp.create (SIZE cfg) (SIZE cfg) 4 transparent;
    let resized := Sharp.resize resample (nw l) (nh l) img in
    composed ← Sharp.composite over canvas resized (left l) (top l);
    webp (webp_options env) composed.
End ToSquareWebP.

(** * Alpha smoother (lines 79-100)

    A sharp instance is a mutable object: [removeAlpha], [extractChannel],
    [blur], [threshold], [raw], [png] and [joinChannel] record the request
    in the instance's options and return the instance itself; [toBuffer]
    runs the instance's input through everything recorded so far.  The
    instances live in a store and the program's variables hold references
    into it, so that two variables bound to the same instance share its
    options. *)
Module Instance.

Inductive Format := FormatInput | FormatRaw | FormatPng.

Record Options := {
    removeAlpha : bool;
    extractChannel : option Z;
    blurSigma : option Q;
    threshold : option Z;
    joinChannelIn : list Image;
    formatOut : Format
  }.

Definition no_options : Options := {|
    removeAlpha := false; extractChannel := None; blurSigma := None;
    threshold := None; joinChannelIn := []; formatOut := FormatInput
  |}.

Record t := { input : Image; options : Options }.

Inductive Buffer :=
    | PngBuffer (img : Image)
    | RawBuffer (bytes : list Z).

Definition Store := list t.
Definition Ref := nat.

  (** Computations over the store that may throw. *)
Definition M (A : Type) : Type := Store -> result (A * Store).

#[global] Instance M_ret : MRet M := fun A a σ => Ok (a, σ).
#[global] Instance M_bind : MBind M := fun A B f m σ =>
    match m σ with
    | Ok (a, σ') => f a σ'
    | Throw msg => Throw msg
    end.

Definition throw {A} (msg : string) : M A := fun _ => Throw msg.
Definition lift {A} (r : result A) : M A := fun σ =>
    match r with
    | Ok a => Ok (a, σ)
    | Throw msg => Throw msg
    end.

Fixpoint chunks (n count : nat) (bytes : list Z) : list Pixel :=
    match count with
    | O => []
    | S k => take n bytes :: chunks n k (drop n bytes)
    end.

  (** [sharp(buf)] and [sharp(buf, { raw: { width, height, channels } })]:
      a new instance.  A raw buffer shorter than the stated dimensions
      need is rejected. *)
Definition sharp (buf : Buffer) (raw : option (Z * Z * Z)) : M Ref :=
    fun σ =>
      match buf, raw with
      | PngBuffer img, None =>
          Ok (length σ, σ ++ [{| input := img; options := no_options |}])
      | RawBuffer bytes, Some (w, h, c) =>
          if (Z.of_nat (length bytes) <? w * h * c)%Z
          then Throw "memory area too small"
          else Ok (length σ,
                   σ ++ [{| input := {| width := w; height := h; channels := c;
                                        pixels := chunks (Z.to_nat c) (Z.to_nat (w * h)) bytes |};
                            options := no_options |}])
      | _, _ => Throw "Input buffer contains unsupported image format"
      end.

  (** A chainable method: updates the options of the instance [r] refers
      to and returns [r]. *)
Definition method (f : Options -> Options) (r : Ref) : M Ref :=
    fun σ =>
      match σ !! r with
      | Some o => Ok (r, <[r := {| input := input o; options := f (options o) |}]> σ)
      | None => Throw "not a sharp instance"
      end.

Definition call_removeAlpha : Ref -> M Ref :=
    method (fun o => {| removeAlpha := true; extractChannel := extractChannel o;
                        blurSigma := blurSigma o; threshold := threshold o;
                        joinChannelIn := joinChannelIn o; formatOut := formatOut o |}).
Definition call_extractChannel (k : Z) : Ref -> M Ref :=
    method (fun o => {| removeAlpha := removeAlpha o; extractChannel := Some k;
                        blurSigma := blurSigma o; threshold := threshold o;
                        joinChannelIn := joinChannelIn o; formatOut := formatOut o |}).
Definition call_blur (sigma : Q) : Ref -> M Ref :=
    method (fun o => {| removeAlpha := removeAlpha o; extractChannel := extractChannel o;
                        blurSigma := Some sigma; threshold := threshold o;
                        joinChannelIn := joinChannelIn o; formatOut := formatOut o |}).
Definition call_threshold (t : Z) : Ref -> M Ref :=
    method (fun o => {| removeAlpha := removeAlpha o; extractChannel := extractChannel o;
                        blurSigma := blurSigma o; threshold := Some t;
                        joinChannelIn := joinChannelIn o; formatOut := formatOut o |}).
Definition call_joinChannel (img : Image) : Ref -> M Ref :=
    method (fun o => {| removeAlpha := removeAlpha o; extractChannel := extractChannel o;
                        blurSigma := blurSigma o; threshold := threshold o;
                        joinChannelIn := joinChannelIn o ++ [img]; formatOut := formatOut o |}).
Definition call_format (f : Format) : Ref -> M Ref :=
    method (fun o => {| removeAlpha := removeAlpha o; extractChannel := extractChannel o;
                        blurSigma := blurSigma o; threshold := threshold o;
                        joinChannelIn := joinChannelIn o; formatOut := f |}).

Definition metadata (r : Ref) : M Image :=
    fun σ =>
      match σ !! r with
      | Some o => Ok (input o, σ)
      | None => Throw "not a sharp instance"
      end.

Definition has_pixel_ops (o : Options) : bool :=
    removeAlpha o || bool_decide (is_Some (extractChannel o))
    || bool_decide (is_Some (blurSigma o)) || bool_decide (is_Some (threshold o)).

  (** [joinChannel]: the channels of [extra] are appended to each pixel. *)
Definition join (img extra : Image) : result Image :=
    if ((width img =? width extra) && (height img =? height extra))%Z
    then Ok {| width := width img; height := height img;
               channels := channels img + channels extra;
               pixels := zip_with app (pixels img) (pixels extra) |}
    else Throw "joinChannel of images of different dimensions".

Section Run.
    (** What libvips computes from an input when pixel operations were
        requested of the instance, as a function of all its options. *)
Variable vips : Options -> Image -> result Image.

Definition run (o : t) : result Buffer :=
      img ← (if has_pixel_ops (options o) then vips (options o) (input o)
             else Ok (input o));
      img ← foldl (fun acc extra => i ← acc; join i extra)
                   (Ok img) (joinChannelIn (options o));
      match formatOut (options o) with
      | FormatRaw => Ok (RawBuffer (concat (pixels img)))
      | _ => Ok (PngBuffer img)
      end.

    (** [await r.toBuffer()] *)
Definition toBuffer (r : Ref) : M Buffer :=
      fun σ =>
        match σ !! r with
        | Some o => match run o with
                    | Ok buf => Ok (buf, σ)
                    | Throw msg => Throw msg
                    end
        | None => Throw "not a sharp instance"
        end.

Definition decode (buf : Buffer) : M Image :=
      match buf with
      | PngBuffer img => mret img
      | RawBuffer _ => throw "Input buffer contains unsupported image format"
      end.

Definition smoothAlpha_body (cfg : Config) (rgbaBuf : Buffer) : M Buffer :=
      img ← sharp rgbaBuf None;
      meta ← metadata img;
      rgb ← call_removeAlpha img;
      alpha ← (r ← call_extractChannel 3 img;
               r ← call_blur (SMOOTH_BLUR cfg) r;
               call_threshold (SMOOTH_THRESH cfg) r);
      alphaBuf ← (r ← call_format FormatRaw alpha; toBuffer r);
      alphaImg ← sharp alphaBuf (Some (width meta, height meta, 1%Z));
      alphaPng ← (r ← call_format FormatPng alphaImg; toBuffer r);
      rgbBuf ← (r ← call_format FormatRaw rgb; toBuffer r);
      rgbImg ← sharp rgbBuf (Some (width meta, height meta, 3%Z));
      rgbPng ← (r ← call_format FormatPng rgbImg; toBuffer r);
      (* recombine rgb and smoothed alpha *)
      alphaChannel ← decode alphaPng;
      r ← sharp rgbPng None;
      r ← call_joinChannel alphaChannel r;
      r ← call_format FormatPng r;
      toBuffer r.
End Run.

End Instance.

Section Pipeline.
Variable vips : Instance.Options -> Image -> result Image.
Variable resample : Image -> Z -> Z -> Z -> Pixel.
Variable over : Pixel -> Pixel -> Pixel.
  (** Options of the high-accuracy tier of the background remover. *)
Variable RemoveOptions : Type.
Variable hq_options : RemoveOptions.   (* { outputType: "png", fast: false, model: "medium" } *)
  (** The background remover, an external model: file path and options to
      a PNG blob, or an exception. *)
Variable removeBackground : string -> option RemoveOptions -> result Image.
Variable cfg : Config.
Variable env : Env.

Definition smoothAlpha (rgbaBuf : Image) : result Image :=
    match Instance.smoothAlpha_body vips cfg (Instance.PngBuffer rgbaBuf) [] with
    | Ok (Instance.PngBuffer img, _) => Ok img
    | Ok (Instance.RawBuffer _, _) => Throw "Input buffer contains unsupported image format"
    | Throw msg => Throw msg
    end.

  (** Lines 102-123. *)
Definition removeBgToRGBA (filePath : string) : result Image :=
    blob ← (if HQ cfg then
              match removeBackground filePath (Some hq_options) with
              | Ok blob => Ok blob
              | Throw _ => removeBackground filePath None
              end
            else removeBackground filePath None);
    let rgba := Sharp.ensureAlpha blob in
    if HQ cfg then smoothAlpha rgba else Ok rgba.

  (** Lines 175-206; the file written to the output directory is the
      buffer returned here. *)
Definition processOne (file : string) : result WebPFile :=
    noBg ← removeBgToRGBA file;
    '(crop, centroid) ← cropSubject cfg noBg;
    toSquareWebP resample over cfg env crop (PADDING_PCT cfg) centroid.
End Pipeline.

(** * Vocabulary of the specification *)

(** An RGBA buffer as the decoder delivers it. *)
Definition is_rgba (img : Image) : Prop :=
  channels img = 4%Z /\ well_formed img.

Definition alpha_at (img : Image) (x y : Z) : option Z :=
  p ← pixel_at img x y; at_index p 3.

(** Pixel [(x, y)] is foreground: its alpha strictly exceeds the threshold. *)
Definition is_foreground (cfg : Config) (img : Image) (x y : Z) : Prop :=
  exists alpha, alpha_at img x y = Some alpha /\ (ALPHA_THRESH cfg < alpha)%Z.

(** The same on the raw alpha channel of an image [w] pixels wide and [h]
    pixels high. *)
Definition fg (thresh : Z) (a : list Z) (w h : Z) (x y : Z) : Prop :=
  (0 <= x < w)%Z /\ (0 <= y < h)%Z /\
  exists alpha, at_index a (y * w + x) = Some alpha /\ (thresh < alpha)%Z.

(** The pixel positions in the order the two loops visit them. *)
Definition visit_order (w h : Z) : list (Z * Z) :=
  y ← seqZ 0 h; (fun x => (x, y)) <$> seqZ 0 w.

(** [0 + 1 + ... + (n - 1)]. *)
Definition tri (n : Z) : Z := (n * (n - 1) / 2)%Z.

(** The layout that [toSquareWebP] computes when [processOne] calls it on
    the background-removed image [noBg]. *)
Definition placement (cfg : Config) (noBg : Image) : result Layout :=
  '(crop, centroid) ← cropSubject cfg noBg;
  let img := Sharp.ensureAlpha crop in
  Ok (layout cfg (PADDING_PCT cfg) (width img) (height img) centroid).

(** A [w] by [h] image all of whose pixels are [p]. *)
Definition uniform_image (w h : Z) (p : Pixel) : Image :=
  {| width := w; height := h; channels := Z.of_nat (length p);
     pixels := replicate (Z.to_nat (w * h)) p |}.

(** The vertical bias in pixels (line 137). *)
Definition bias_px (cfg : Config) : Z :=
  Math_round (mul (V_BIAS_PCT cfg) (inject_Z (SIZE cfg))).



(** A 10 by 1 image whose opaque pixels sit at its right end, with one
    faint pixel at the left end. *)
Definition lopsided_image : Image :=
  {| width := 10; height := 1; channels := 4;
     pixels := [[1; 2; 3; 17]; [0; 0; 0; 0]; [0; 0; 0; 0]; [0; 0; 0; 0];
                [0; 0; 0; 0]; [0; 0; 0; 0]; [0; 0; 0; 0]; [0; 0; 0; 0];
                [9; 9; 9; 255]; [9; 9; 9; 255]]%Z |}.

(** What the analyzer returns for a 1000 by 600 image that is opaque
    everywhere. *)
Definition opaque_1000x600_analysis : Analysis.t :=
  {| Analysis.bbox := (0, 0, 1000, 600)%Z;
     Analysis.cx := div (inject_Z (255 * 600 * tri 1000)) (inject_Z (255 * 1000 * 600));
     Analysis.cy := div (inject_Z (255 * 1000 * tri 600)) (inject_Z (255 * 1000 * 600));
     Analysis.w := 1000; Analysis.h := 600 |}.

(** The scenario of the specification: geometric centering of the resized
    1800 by 1080 image. *)
Definition scenario_layout : Layout :=
  {| nw := 1800; nh := 1080; left := 100; top := 460 |}.

(** The guarantee of the alpha smoother in the words of the specification:
    same dimensions, colour channels untouched, alpha binarized. *)
Definition smoothAlpha_as_specified
    (vips : Instance.Options -> Image -> result Image) (cfg : Config) (img : Image) : Prop :=
  exists out,
    smoothAlpha vips cfg img = Ok out /\
    width out = width img /\ height out = height img /\
    forall x y p, pixel_at img x y = Some p ->
      exists a', (a' = 0 \/ a' = 255)%Z /\ pixel_at out x y = Some (take 3 p ++ [a']).

(** A single opaque pixel of colour (10, 20, 30). *)
Definition one_pixel : Image :=
  {| width := 1; height := 1; channels := 4; pixels := [[10; 20; 30; 255]]%Z |}.

(** The options recorded on the one instance of [smoothAlpha] when its
    [toBuffer] is called (both times). *)
Definition smoothing_options (cfg : Config) : Instance.Options :=
  {| Instance.removeAlpha := true;
Instance.extractChannel := Some 3%Z;
Instance.blurSigma := Some (SMOOTH_BLUR cfg);
Instance.threshold := Some (SMOOTH_THRESH cfg);
Instance.joinChannelIn := [];
Instance.formatOut := Instance.FormatRaw |}.

(** A 4 by 4 canvas with a quarter of padding on each side. *)
Definition tiny_config : Config := {|
  SIZE := 4; PADDING_PCT := 1 # 4; V_BIAS_PCT := 0; ALPHA_THRESH := 16;
  HQ := false; SMOOTH_THRESH := 180; SMOOTH_BLUR := round64 (12 # 10)
|}.

(** The default configuration with [HQ=1]. *)
Definition hq_config : Config := {|
  SIZE := 2000; PADDING_PCT := round64 (5 # 100); V_BIAS_PCT := 0; ALPHA_THRESH := 16;
  HQ := true; SMOOTH_THRESH := 180; SMOOTH_BLUR := round64 (12 # 10)
|}.

(** Stand-ins for the parameters, used to run the model: a resampling
    kernel that paints every pixel opaque white, a blend that keeps the
    overlay, a libvips that returns its input, and a background remover
    whose high-accuracy tier always throws. *)
Definition white_resample (_ : Image) (_ _ _ : Z) : Pixel := [255; 255; 255; 255]%Z.
Definition overlay_wins (_ p : Pixel) : Pixel := p.
Definition vips_identity (_ : Instance.Options) (img : Image) : result Image := Ok img.

(** * Vocabulary of the proofs about the analyzer *)

(** The accumulator before the first pixel (lines 48-54). *)
Definition scan_init (w h : Z) : Acc :=
  {| x0 := w; y0 := h; x1 := -1; y1 := -1; sumA := 0; sumX := 0; sumY := 0 |}.

(** One iteration of the inner loop, at position [p = (x, y)]. *)
Definition scan_step (thresh : Z) (a : list Z) (w : Z) (acc : Acc) (p : Z * Z) : Acc :=
  scan_pixel thresh a w (snd p) acc (fst p).

(** Some position of [l] is foreground. *)
Definition seen (thresh : Z) (a : list Z) (w h : Z) (l : list (Z * Z)) : Prop :=
  exists x y, (x, y) ∈ l /\ fg thresh a w h x y.

(** Each edge of the accumulated box passes through a foreground position
    of [l]. *)
Definition on_edges (thresh : Z) (a : list Z) (w h : Z) (l : list (Z * Z)) (acc : Acc)
    : Prop :=
  (exists y, (x0 acc, y) ∈ l /\ fg thresh a w h (x0 acc) y) /\
  (exists y, (x1 acc, y) ∈ l /\ fg thresh a w h (x1 acc) y) /\
  (exists x, (x, y0 acc) ∈ l /\ fg thresh a w h x (y0 acc)) /\
  (exists x, (x, y1 acc) ∈ l /\ fg thresh a w h x (y1 acc)).

(** The loop invariant of the scan, over the positions [l] visited so far. *)
Definition Inv (thresh : Z) (a : list Z) (w h : Z) (l : list (Z * Z)) (acc : Acc) : Prop :=
  (forall x y, (x, y) ∈ l -> fg thresh a w h x y ->
     (x0 acc <= x <= x1 acc)%Z /\ (y0 acc <= y <= y1 acc)%Z) /\
  ((~ seen thresh a w h l /\ acc = scan_init w h) \/
   (seen thresh a w h l /\ on_edges thresh a w h l acc)).


(** Half a unit in the last place, relative: 2^-53. *)
Definition u53 : Q := 1 # 9007199254740992.

(** * Box expansion (lines 30-40)

    [expandBox] grows a box by a fraction of its longer side and clips it
    to the image. *)
Definition expandBox (box : Z * Z * Z * Z) (w h : Z) (padPct : Q) : Z * Z * Z * Z :=
  let '(bx0, by0, bx1, by1) := box in
  let bw := (bx1 - bx0)%Z in
  let bh := (by1 - by0)%Z in
  let pad := Math_round (mul (inject_Z (Z.max bw bh)) padPct) in
  (Z.max 0 (bx0 - pad), Z.max 0 (by0 - pad), Z.min w (bx1 + pad), Z.min h (by1 + pad))%Z.

(** * Directory traversal (lines 22-28)

    What [fs.readdir(dir, { withFileTypes: true })] finds: an entry is a
    directory with its own entries, or anything else, with its name.  A
    path is the list of its segments; [path.resolve(dir, d.name)] appends
    the name to the resolved directory. *)
#[warnings="-register-all"] Inductive Dirent :=
  | File (name : string)
  | Directory (name : string) (entries : list Dirent).

Definition Path := list string.

Definition lower (c : ascii) : ascii :=
  let n := N_of_ascii c in
  if ((65 <=? n) && (n <=? 90))%N then ascii_of_N (n + 32) else c.

(** [s] ends with [ext], letters compared without regard to case; [ext] is
    in lower case. *)
Definition ends_with_ci (ext s : string) : bool :=
  let e := list_ascii_of_string ext in
  let l := list_ascii_of_string s in
  (length e <=? length l)%nat &&
  bool_decide (lower <$> drop (length l - length e) l = e).

(** [/\.(jpe?g|png|webp|tiff?)$/i.test(name)]: the six endings the
    pattern accepts. *)
Definition image_extensions : list string :=
  [".jpg"; ".jpeg"; ".png"; ".webp"; ".tif"; ".tiff"]%string.

Definition has_image_ext (name : string) : bool :=
  existsb (fun ext => ends_with_ci ext name) image_extensions.

(** One turn of the loop of [walk(dir)], on the entry [d]: a directory is
    walked in turn ([yield* walk(p)]), another entry is yielded when its
    name has one of the endings. *)
Fixpoint walk_entry (dir : Path) (d : Dirent) : list Path :=
  match d with
  | Directory name sub => flat_map (walk_entry (dir ++ [name])) sub
  | File name => if has_image_ext name then [dir ++ [name]] else []
  end.

(** [walk(dir)]: the paths it yields, in order, when [entries] is what
    [readdir] finds in [dir].  The tree is the one found when the walk
    starts, and every [readdir] is taken to succeed. *)
Definition walk (dir : Path) (entries : list Dirent) : list Path :=
  flat_map (walk_entry dir) entries.

(** The file [name] is found below the listing [entries] through the
    directories [dirs]. *)
Inductive located : list Dirent -> list string -> string -> Prop :=
  | located_here entries name :
      File name ∈ entries -> located entries [] name
  | located_below entries d sub dirs name :
      Directory d sub ∈ entries -> located sub dirs name ->
      located entries (d :: dirs) name.

(** * Entry point (lines 222-243) *)

(** [/^https?:\/\//i.test(INPUT)] *)
Definition starts_with_ci (prefix s : string) : bool :=
  let p := list_ascii_of_string prefix in
  bool_decide (lower <$> take (length p) (list_ascii_of_string s) = p).

Definition is_url (input : string) : bool :=
  starts_with_ci "http://" input || starts_with_ci "https://" input.

(** How the process ends: it runs to the end having logged [Done: n files],
    it calls [process.exit(1)], or the promise of the main function rejects
    with nothing to catch it. *)
Inductive Outcome :=
  | Done (n : nat)
  | Exit1
  | Unhandled (msg : string).

(** What a log line of the loop names: the input and the output path. *)
Inductive Source :=
  | LocalFile (p : Path)
  | Url (u : string).

Section Main.
(** [processOne] and [downloadToTemp] as functions of their argument: the
    output path or the local path, or an exception. *)
Variable processOne : Path -> result Path.
Variable downloadToTemp : string -> result Path.

(** The [for await] loop of the batch branch (lines 236-240), started with
    [n] files done and the lines [log] printed. *)
Fixpoint batch (files : list Path) (n : nat) (log : list (Source * Path))
    : Outcome * list (Source * Path) :=
  match files with
  | [] => (Done n, log)
  | f :: rest =>
      match processOne f with
      | Ok out => batch rest (S n) (log ++ [(LocalFile f, out)])
      | Throw msg => (Unhandled msg, log)
      end
  end.

(** The main function: [input] is INPUT, [dir] the resolved input
    directory and [entries] what is found there.  The creation of the
    output directory is taken to succeed. *)
Definition main (input : string) (dir : Path) (entries : list Dirent)
    : Outcome * list (Source * Path) :=
  if is_url input then
    match (localFile ← downloadToTemp input; processOne localFile) with
    | Ok out => (Done 1, [(Url input, out)])
    | Throw _ => (Exit1, [])
    end
  else batch (walk dir entries) 0 [].

(** [processOne] returns for the file [f]. *)
Definition succeeds (f : Path) : Prop := exists out, processOne f = Ok out.
End Main.

(** * Output name (lines 176 and 203)

    [path.extname] and [path.basename] on the last segment of a path, as
    Node documents them: the extension runs from the last "." of the name
    to its end, and is empty when the name has no ".", when its only "."
    is its first character, or when the name is "..". *)
Fixpoint last_dot (l : list ascii) : option nat :=
  match l with
  | [] => None
  | c :: r =>
      match last_dot r with
      | Some i => Some (S i)
      | None => if bool_decide (c = "."%char) then Some 0%nat else None
      end
  end.

Definition extname (name : string) : string :=
  let l := list_ascii_of_string name in
  match last_dot l with
  | None | Some O => ""
  | Some i => if bool_decide (name = "..") then "" else string_of_list_ascii (drop i l)
  end%string.

(** [path.basename(name, ext)]: the name without the suffix [ext], when
    [ext] is not empty and the name ends with it. *)
Definition basename (name ext : string) : string :=
  let l := list_ascii_of_string name in
  let e := list_ascii_of_string ext in
  if bool_decide (e = []) then name
  else if bool_decide (e = l) then ""%string
  else if (length e <=? length l)%nat && bool_decide (drop (length l - length e) l = e)
       then string_of_list_ascii (take (length l - length e) l)
       else name.

Definition last_segment (p : Path) : string := List.last p ""%string.

(** [path.join(OUTPUT, `${base}.webp`)] for the file [file], [output] being
    the segments of OUTPUT. *)
Definition outPath (output file : Path) : Path :=
  let base := basename (last_segment file) (extname (last_segment file)) in
  output ++ [(base +:+ ".webp")%string].

(** [e] is one of the six endings, in any case of its letters. *)
Definition is_ending (e : string) : Prop :=
  string_of_list_ascii (lower <$> list_ascii_of_string e) ∈ image_extensions.

(** A run to try the entry point on: a [processOne] that fails on the
    files named bad.png and writes the others, a download that succeeds
    and two listings of the input directory. *)
Definition sample_processOne (f : Path) : result Path :=
  if bool_decide (last_segment f = "bad.png"%string)
  then Throw "Input file contains unsupported image format"
  else Ok (outPath ["out"%string] f).

Definition sample_download (url : string) : result Path :=
  Ok ["downloaded"; "photo.jpg"]%string.

Definition clean_listing : list Dirent :=
  [File "a.jpg"; File "notes.txt"; Directory "sub" [File "c.PNG"]]%string.

Definition listing_with_bad_file : list Dirent :=
  [File "a.jpg"; Directory "sub" [File "bad.png"; File "c.PNG"]; File "d.tiff"]%string.

(** A remover that fails at either tier. *)
Definition always_failing_remover (file : string) (o : option unit) : result Image :=
  match o with
  | Some _ => Throw "model medium unavailable"
  | None => Throw ("cannot read " +:+ file)
  end%string.


(** * Facts about binary64 rounding *)

Section Rounding.
Open Scope Q_scope.

Lemma two_pow_pos (e : Z) : 0 < 2 ^ e.
Proof. apply Qpower_0_lt. reflexivity. Qed.

Lemma two_pow_nonzero (e : Z) : ~ 2 ^ e == 0.
Proof. pose proof (two_pow_pos e). lra. Qed.

Lemma two_pow_add (a b : Z) : 2 ^ (a + b) == 2 ^ a * 2 ^ b.
Proof. apply Qpower_plus. lra. Qed.

Lemma two_pow_succ (a : Z) : 2 ^ (a + 1) == 2 * 2 ^ a.
Proof. rewrite two_pow_add. change (2 ^ 1) with 2. ring. Qed.

Lemma two_pow_le (a b : Z) : (a <= b)%Z -> 2 ^ a <= 2 ^ b.
Proof. intros H. apply Qpower_le_compat_l; [exact H | lra]. Qed.

Lemma two_pow_lt (a b : Z) : (a < b)%Z -> 2 ^ a < 2 ^ b.
Proof. intros H. apply Qpower_lt_compat_l; [exact H | lra]. Qed.

Lemma two_pow_lt_inv (a b : Z) : 2 ^ a < 2 ^ b -> (a < b)%Z.
Proof. intros H. apply (Qpower_lt_compat_l_inv 2); [exact H | lra]. Qed.

Lemma two_pow_inject (n : Z) : (0 <= n)%Z -> 2 ^ n == inject_Z (2 ^ n).
Proof. intros H. rewrite Zpower_Qpower by exact H. reflexivity. Qed.

Lemma Qmake_mul_den (a : Q) : a * inject_Z (Zpos (Qden a)) == inject_Z (Qnum a).
Proof. destruct a as [n d]. unfold Qeq, Qmult, inject_Z. simpl. lia. Qed.

Lemma ilog2_spec (a : Q) : 0 < a -> 2 ^ ilog2 a <= a /\ a < 2 ^ (ilog2 a + 1).
Proof.
  intros Ha.
  pose proof (Qmake_mul_den a) as Hnd.
  assert (Hn : (0 < Qnum a)%Z).
  { destruct a as [n d]. unfold Qlt in Ha. simpl in *. lia. }
  set (n := Qnum a) in *. set (d := Zpos (Qden a)) in *.
  assert (Hd : (0 < d)%Z) by (subst d; lia).
  destruct (Z.log2_spec n Hn) as [Hn1 Hn2].
  destruct (Z.log2_spec d Hd) as [Hd1 Hd2].
  pose proof (Z.log2_nonneg n) as Lnn. pose proof (Z.log2_nonneg d) as Ldn.
  rewrite <- Z.add_1_r in Hn2, Hd2.
  rewrite Zle_Qle in Hn1, Hd1. rewrite Zlt_Qlt in Hn2, Hd2.
  rewrite <- two_pow_inject in Hn1, Hn2, Hd1, Hd2 by lia.
  rewrite two_pow_succ in Hn2, Hd2.
  unfold ilog2. fold n. fold d.
  set (e0 := (Z.log2 n - Z.log2 d)%Z).
  assert (HE : 2 ^ e0 * 2 ^ Z.log2 d == 2 ^ Z.log2 n).
  { rewrite <- two_pow_add. subst e0. replace (Z.log2 n - Z.log2 d + Z.log2 d)%Z with (Z.log2 n) by lia. reflexivity. }
  pose proof (two_pow_pos e0) as He0.
  pose proof (two_pow_pos (Z.log2 d)) as Hpd.
  pose proof (two_pow_pos (Z.log2 n)) as Hpn.
  set (E := 2 ^ e0) in *. set (P2 := 2 ^ Z.log2 d) in *. set (P1 := 2 ^ Z.log2 n) in *.
  set (D := inject_Z d) in *. set (N := inject_Z n) in *.
  assert (Hup : a < 2 * E).
  { assert (a * D < 2 * E * D) by nra. 
    assert (0 < D) by lra. nra. }
  assert (Hlo : E < 2 * a).
  { assert (E * P2 < 2 * a * P2) by nra. nra. }
  destruct (Qle_bool E a) eqn:Hb.
  - apply Qle_bool_iff in Hb. split; [exact Hb|]. subst E. rewrite two_pow_succ. exact Hup.
  - assert (~ E <= a) by (intro Hc; apply Qle_bool_iff in Hc; congruence).
    replace (e0 - 1 + 1)%Z with e0 by lia. fold E.
    assert (HE1 : 2 ^ (e0 - 1) * 2 == E).
    { subst E. replace e0 with (e0 - 1 + 1)%Z at 2 by lia. rewrite two_pow_succ. ring. }
    split; [|lra]. nra.
Qed.

Lemma ilog2_unique (a : Q) (k : Z) : 2 ^ k <= a -> a < 2 ^ (k + 1) -> ilog2 a = k.
Proof.
  intros H1 H2.
  assert (Ha : 0 < a) by (pose proof (two_pow_pos k); lra).
  destruct (ilog2_spec a Ha) as [H3 H4].
  assert (ilog2 a < k + 1)%Z by (apply two_pow_lt_inv; lra).
  assert (k < ilog2 a + 1)%Z by (apply two_pow_lt_inv; lra).
  lia.
Qed.

Lemma ilog2_comp (a b : Q) : 0 < a -> a == b -> ilog2 a = ilog2 b.
Proof.
  intros Ha Hab. destruct (ilog2_spec a Ha) as [H1 H2].
  symmetry. apply ilog2_unique; lra.
Qed.

Lemma ilog2_mono (a b : Q) : 0 < a -> a <= b -> (ilog2 a <= ilog2 b)%Z.
Proof.
  intros Ha Hab.
  destruct (ilog2_spec a Ha) as [H1 _].
  destruct (ilog2_spec b) as [_ H2]; [lra|].
  assert (ilog2 a < ilog2 b + 1)%Z by (apply two_pow_lt_inv; lra).
  lia.
Qed.

Lemma roundHalfEven_comp (m1 m2 : Q) : m1 == m2 -> roundHalfEven m1 = roundHalfEven m2.
Proof.
  intros H. unfold roundHalfEven.
  rewrite (Qfloor_comp _ _ H).
  assert (Hc : (m1 - inject_Z (Qfloor m2) ?= 1 # 2) = (m2 - inject_Z (Qfloor m2) ?= 1 # 2)).
  { apply Qcompare_comp; [rewrite H; reflexivity | reflexivity]. }
  rewrite Hc. reflexivity.
Qed.

Lemma roundHalfEven_cases (m : Q) :
  let f := Qfloor m in
  (roundHalfEven m = f /\ m - inject_Z f <= 1 # 2) \/
  (roundHalfEven m = (f + 1)%Z /\ 1 # 2 <= m - inject_Z f).
Proof.
  intros f. unfold roundHalfEven. fold f.
  destruct (Qcompare_spec (m - inject_Z f) (1 # 2)) as [H|H|H].
  - destruct (Z.even f); [left | right]; split; auto; lra.
  - left. split; auto; lra.
  - right. split; auto; lra.
Qed.

Lemma roundHalfEven_bounds (m : Q) :
  inject_Z (roundHalfEven m) - (1 # 2) <= m /\ m <= inject_Z (roundHalfEven m) + (1 # 2).
Proof.
  pose proof (Qfloor_le m) as H1. pose proof (Qlt_floor m) as H2.
  rewrite inject_Z_plus in H2.
  destruct (roundHalfEven_cases m) as [[-> H]|[-> H]].
  - split; lra.
  - rewrite inject_Z_plus. change (inject_Z 1) with 1 in *. split; lra.
Qed.

Lemma roundHalfEven_Z (z : Z) : roundHalfEven (inject_Z z) = z.
Proof.
  unfold roundHalfEven. rewrite Qfloor_Z.
  destruct (Qcompare_spec (inject_Z z - inject_Z z) (1 # 2)) as [H|H|H]; try lra.
  reflexivity.
Qed.

Lemma roundHalfEven_mono (m1 m2 : Q) : m1 <= m2 -> (roundHalfEven m1 <= roundHalfEven m2)%Z.
Proof.
  intros H.
  pose proof (Qfloor_resp_le _ _ H) as Hf.
  pose proof (Qfloor_le m1) as A1. pose proof (Qlt_floor m1) as A2.
  pose proof (Qfloor_le m2) as B1. pose proof (Qlt_floor m2) as B2.
  rewrite inject_Z_plus in A2, B2. change (inject_Z 1) with 1 in *.
  destruct (Z.eq_dec (Qfloor m1) (Qfloor m2)) as [E|NE].
  - unfold roundHalfEven. rewrite E.
    destruct (Qcompare_spec (m1 - inject_Z (Qfloor m2)) (1 # 2)) as [H1|H1|H1];
    destruct (Qcompare_spec (m2 - inject_Z (Qfloor m2)) (1 # 2)) as [H2|H2|H2];
    try lra; try lia; destruct (Z.even (Qfloor m2)); lia.
  - assert (Qfloor m1 + 1 <= Qfloor m2)%Z by lia.
    destruct (roundHalfEven_cases m1) as [[-> _]|[-> _]];
    destruct (roundHalfEven_cases m2) as [[-> _]|[-> _]]; lia.
Qed.

Lemma roundHalfEven_le_Z (m : Q) (z : Z) : m <= inject_Z z -> (roundHalfEven m <= z)%Z.
Proof. intros H. rewrite <- (roundHalfEven_Z z). apply roundHalfEven_mono, H. Qed.

Lemma roundHalfEven_ge_Z (m : Q) (z : Z) : inject_Z z <= m -> (z <= roundHalfEven m)%Z.
Proof. intros H. rewrite <- (roundHalfEven_Z z) at 1. apply roundHalfEven_mono, H. Qed.

Lemma div_two_pow (a : Q) (e : Z) : a / 2 ^ e == a * 2 ^ (- e).
Proof. unfold Qdiv. rewrite Qpower_opp. reflexivity. Qed.

Lemma two_pow_cancel (e : Z) : 2 ^ (- e) * 2 ^ e == 1.
Proof. rewrite <- two_pow_add. replace (- e + e)%Z with 0%Z by lia. reflexivity. Qed.

Lemma scaled_back (a : Q) (e : Z) : a / 2 ^ e * 2 ^ e == a.
Proof. rewrite div_two_pow, <- Qmult_assoc, two_pow_cancel. ring. Qed.

Lemma ulp_exp_comp (a b : Q) : 0 < a -> a == b -> ulp_exp a = ulp_exp b.
Proof. intros Ha Hab. unfold ulp_exp. rewrite (ilog2_comp a b Ha Hab). reflexivity. Qed.

Lemma ulp_exp_mono (a b : Q) : 0 < a -> a <= b -> (ulp_exp a <= ulp_exp b)%Z.
Proof. intros Ha Hab. unfold ulp_exp. pose proof (ilog2_mono a b Ha Hab). lia. Qed.

Lemma round_pos_comp (a b : Q) : 0 < a -> a == b -> round_pos a == round_pos b.
Proof.
  intros Ha Hab. unfold round_pos.
  rewrite (ulp_exp_comp a b Ha Hab).
  rewrite (roundHalfEven_comp (a / 2 ^ ulp_exp b) (b / 2 ^ ulp_exp b)); [reflexivity|].
  rewrite Hab. reflexivity.
Qed.

Lemma round_pos_nonneg (a : Q) : 0 < a -> 0 <= round_pos a.
Proof.
  intros Ha. unfold round_pos.
  pose proof (two_pow_pos (ulp_exp a)) as Hp.
  pose proof (two_pow_pos (- ulp_exp a)) as Hq.
  assert (0 <= roundHalfEven (a / 2 ^ ulp_exp a))%Z as Hr.
  { apply roundHalfEven_ge_Z. rewrite div_two_pow. change (inject_Z 0) with 0. nra. }
  rewrite Zle_Qle in Hr. change (inject_Z 0) with 0 in Hr. nra.
Qed.

Lemma round_pos_exact (a : Q) (z : Z) :
  a / 2 ^ ulp_exp a == inject_Z z -> round_pos a == a.
Proof.
  intros H. unfold round_pos.
  rewrite (roundHalfEven_comp _ _ H), roundHalfEven_Z, <- H.
  apply scaled_back.
Qed.

Lemma round_pos_le_pow (a : Q) (k : Z) :
  0 < a -> a <= 2 ^ k -> (ulp_exp a <= k)%Z -> round_pos a <= 2 ^ k.
Proof.
  intros Ha Hk He. unfold round_pos. set (e := ulp_exp a) in *.
  pose proof (two_pow_pos e) as Hp. pose proof (two_pow_pos (- e)) as Hq.
  assert (Hm : a / 2 ^ e <= inject_Z (2 ^ (k - e))).
  { rewrite <- two_pow_inject by lia. rewrite div_two_pow.
    replace (k - e)%Z with (k + - e)%Z by lia. rewrite two_pow_add. nra. }
  apply roundHalfEven_le_Z in Hm. rewrite Zle_Qle in Hm.
  rewrite <- two_pow_inject in Hm by lia.
  assert (Hk2 : 2 ^ (k - e) * 2 ^ e == 2 ^ k).
  { rewrite <- two_pow_add. replace (k - e + e)%Z with k by lia. reflexivity. }
  nra.
Qed.

Lemma round_pos_ge_pow (a : Q) (k : Z) :
  2 ^ k <= a -> (ulp_exp a <= k)%Z -> 2 ^ k <= round_pos a.
Proof.
  intros Hk He. unfold round_pos. set (e := ulp_exp a) in *.
  pose proof (two_pow_pos e) as Hp. pose proof (two_pow_pos (- e)) as Hq.
  assert (Hm : inject_Z (2 ^ (k - e)) <= a / 2 ^ e).
  { rewrite <- two_pow_inject by lia. rewrite div_two_pow.
    replace (k - e)%Z with (k + - e)%Z by lia. rewrite two_pow_add. nra. }
  apply roundHalfEven_ge_Z in Hm. rewrite Zle_Qle in Hm.
  rewrite <- two_pow_inject in Hm by lia.
  assert (Hk2 : 2 ^ (k - e) * 2 ^ e == 2 ^ k).
  { rewrite <- two_pow_add. replace (k - e + e)%Z with k by lia. reflexivity. }
  nra.
Qed.

Lemma round_pos_mono (a b : Q) : 0 < a -> a <= b -> round_pos a <= round_pos b.
Proof.
  intros Ha Hab.
  pose proof (ulp_exp_mono a b Ha Hab) as He.
  destruct (Z.eq_dec (ulp_exp a) (ulp_exp b)) as [E|NE].
  - unfold round_pos. rewrite E. set (e := ulp_exp b).
    pose proof (two_pow_pos e) as Hp. pose proof (two_pow_pos (- e)) as Hq.
    assert (Hm : a / 2 ^ e <= b / 2 ^ e) by (rewrite !div_two_pow; nra).
    apply roundHalfEven_mono in Hm. rewrite Zle_Qle in Hm. nra.
  - assert (Hb : 0 < b) by lra.
    destruct (ilog2_spec a Ha) as [_ A2]. destruct (ilog2_spec b Hb) as [B1 _].
    assert (Hkb : ulp_exp b = (ilog2 b - 52)%Z) by (unfold ulp_exp in *; lia).
    assert (Hka : (ilog2 a + 1 <= ilog2 b)%Z) by (unfold ulp_exp in *; lia).
    pose proof (two_pow_le _ _ Hka) as Hp.
    apply Qle_trans with (2 ^ ilog2 b).
    + apply round_pos_le_pow; [exact Ha | lra | lia].
    + apply round_pos_ge_pow; [exact B1 | lia].
Qed.

Lemma round64_zero (x : Q) : x == 0 -> round64 x = 0.
Proof.
  intros H. unfold round64. destruct x as [[|p|p] d]; try reflexivity;
  unfold Qeq in H; simpl in H; lia.
Qed.

Lemma round64_pos (x : Q) : 0 < x -> round64 x = round_pos x.
Proof.
  intros H. unfold round64. destruct x as [[|p|p] d]; try reflexivity;
  unfold Qlt in H; simpl in H; lia.
Qed.

Lemma round64_neg (x : Q) : x < 0 -> round64 x = - round_pos (- x).
Proof.
  intros H. unfold round64. destruct x as [[|p|p] d]; try reflexivity;
  unfold Qlt in H; simpl in H; lia.
Qed.

Lemma Q_sign_cases (x : Q) : x < 0 \/ x == 0 \/ 0 < x.
Proof. destruct (Q_dec x 0) as [[H|H]|H]; auto. Qed.

#[global] Instance round64_proper : Proper (Qeq ==> Qeq) round64.
Proof.
  intros x y H. destruct (Q_sign_cases x) as [Hx|[Hx|Hx]].
  - rewrite (round64_neg x Hx), (round64_neg y) by lra.
    apply Qopp_comp. apply round_pos_comp; [lra | rewrite H; reflexivity].
  - rewrite (round64_zero x Hx), (round64_zero y) by lra. reflexivity.
  - rewrite (round64_pos x Hx), (round64_pos y) by lra.
    apply round_pos_comp; assumption.
Qed.

Lemma round64_opp (x : Q) : round64 (- x) == - round64 x.
Proof.
  destruct (Q_sign_cases x) as [Hx|[Hx|Hx]].
  - rewrite (round64_neg x Hx), (round64_pos (- x)) by lra. ring.
  - rewrite (round64_zero x Hx), (round64_zero (- x)) by lra. reflexivity.
  - rewrite (round64_pos x Hx), (round64_neg (- x)) by lra.
    apply Qopp_comp. apply round_pos_comp; [lra | ring].
Qed.

Lemma round64_nonneg (x : Q) : 0 <= x -> 0 <= round64 x.
Proof.
  intros H. destruct (Q_sign_cases x) as [Hx|[Hx|Hx]]; [lra| |].
  - rewrite round64_zero by assumption. lra.
  - rewrite round64_pos by assumption. apply round_pos_nonneg, Hx.
Qed.

Lemma round64_nonpos (x : Q) : x <= 0 -> round64 x <= 0.
Proof.
  intros H. pose proof (round64_nonneg (- x)) as Hn. rewrite round64_opp in Hn. lra.
Qed.

(** Rounding is monotone. *)
Lemma round64_mono (x y : Q) : x <= y -> round64 x <= round64 y.
Proof.
  intros H.
  destruct (Q_sign_cases x) as [Hx|[Hx|Hx]]; destruct (Q_sign_cases y) as [Hy|[Hy|Hy]];
    try lra.
  - rewrite (round64_neg x Hx), (round64_neg y Hy).
    pose proof (round_pos_mono (- y) (- x)). lra.
  - pose proof (round64_nonpos x). pose proof (round64_nonneg y). lra.
  - pose proof (round64_nonpos x). pose proof (round64_nonneg y). lra.
  - pose proof (round64_nonpos x). pose proof (round64_nonneg y). lra.
  - pose proof (round64_nonpos x). pose proof (round64_nonneg y). lra.
  - rewrite (round64_pos x Hx), (round64_pos y Hy). apply round_pos_mono; assumption.
Qed.

Lemma two_pow_53 : 2 ^ 53 == inject_Z (2 ^ 53).
Proof. reflexivity. Qed.

Lemma round_pos_dyadic (z j : Z) :
  (0 < z <= 2 ^ 53)%Z -> (-1074 <= j)%Z ->
  round_pos (inject_Z z * 2 ^ j) == inject_Z z * 2 ^ j.
Proof.
  intros [Hz0 Hz] Hj.
  set (a := inject_Z z * 2 ^ j).
  pose proof (two_pow_pos j) as Hpj.
  assert (HzQ : 0 < inject_Z z) by (rewrite Zlt_Qlt in Hz0; exact Hz0).
  assert (HzQ' : inject_Z z <= 2 ^ 53) by (rewrite Zle_Qle in Hz; exact Hz).
  assert (Ha : 0 < a) by (subst a; nra).
  destruct (ilog2_spec a Ha) as [K1 K2].
  set (k := ilog2 a) in *. set (e := ulp_exp a).
  assert (He : e = Z.max (k - 52) (-1074)) by reflexivity.
  destruct (Z_le_gt_dec e j) as [Hle|Hgt].
  - apply (round_pos_exact a (z * 2 ^ (j - e))). fold e.
    rewrite inject_Z_mult, <- two_pow_inject by lia.
    rewrite div_two_pow. subst a.
    replace (j - e)%Z with (j + - e)%Z by lia. rewrite two_pow_add. ring.
  - assert (Hk : (k <= 53 + j)%Z).
    { assert (2 ^ k < 2 ^ (53 + j + 1)).
      { rewrite two_pow_succ, two_pow_add. subst a. nra. }
      apply two_pow_lt_inv in H. lia. }
    assert (Hk' : k = (53 + j)%Z) by lia.
    assert (Hej : e = (j + 1)%Z) by lia.
    assert (Hz53 : inject_Z z == 2 ^ 53).
    { rewrite Hk', two_pow_add in K1. subst a. 
      assert (2 ^ 53 <= inject_Z z) by nra. lra. }
    apply (round_pos_exact a (2 ^ 52)). fold e.
    rewrite div_two_pow. subst a. rewrite Hz53, Hej.
    replace (- (j + 1))%Z with (- j + -1)%Z by lia.
    rewrite two_pow_add.
    pose proof (two_pow_cancel j) as Hc.
    transitivity (2 ^ 53 * 2 ^ (-1) * (2 ^ (- j) * 2 ^ j)); [ring|].
    rewrite Hc. reflexivity.
Qed.

(** Values [z * 2^j] with at most 53 significant bits are left unchanged. *)
Lemma round64_dyadic (z j : Z) :
  (Z.abs z <= 2 ^ 53)%Z -> (-1074 <= j)%Z ->
  round64 (inject_Z z * 2 ^ j) == inject_Z z * 2 ^ j.
Proof.
  intros Hz Hj. pose proof (two_pow_pos j) as Hpj.
  destruct (Z.lt_trichotomy z 0) as [H|[H|H]].
  - assert (inject_Z z < 0) by (rewrite Zlt_Qlt in H; exact H).
    rewrite round64_neg by nra.
    rewrite (round_pos_comp _ (inject_Z (- z) * 2 ^ j)).
    + rewrite round_pos_dyadic by lia. rewrite inject_Z_opp. ring.
    + nra.
    + rewrite inject_Z_opp. ring.
  - subst z. rewrite round64_zero; [ring_simplify; reflexivity | ring].
  - assert (0 < inject_Z z) by (rewrite Zlt_Qlt in H; exact H).
    rewrite round64_pos by nra. apply round_pos_dyadic; lia.
Qed.

(** Integers up to 2^53 in magnitude are binary64 values. *)
Lemma round64_Z (z : Z) : (Z.abs z <= 2 ^ 53)%Z -> round64 (inject_Z z) == inject_Z z.
Proof.
  intros Hz. pose proof (round64_dyadic z 0 Hz ltac:(lia)) as H.
  change (2 ^ 0) with 1 in H. rewrite Qmult_1_r in H. exact H.
Qed.

(** Relative error of rounding in the normal range. *)
Lemma round_pos_error (a : Q) :
  2 ^ (-1022) <= a ->
  a * (1 - 2 ^ (-53)) <= round_pos a /\ round_pos a <= a * (1 + 2 ^ (-53)).
Proof.
  intros Hn.
  assert (Ha : 0 < a) by (pose proof (two_pow_pos (-1022)); lra).
  destruct (ilog2_spec a Ha) as [K1 K2].
  assert (Hk : (-1022 <= ilog2 a)%Z).
  { assert (2 ^ (-1022) < 2 ^ (ilog2 a + 1)) by lra.
    apply two_pow_lt_inv in H. lia. }
  unfold round_pos.
  assert (He : ulp_exp a = (ilog2 a - 52)%Z) by (unfold ulp_exp; lia).
  rewrite He. set (k := ilog2 a) in *.
  destruct (roundHalfEven_bounds (a / 2 ^ (k - 52))) as [B1 B2].
  set (r := inject_Z (roundHalfEven (a / 2 ^ (k - 52)))) in *.
  pose proof (scaled_back a (k - 52)) as Hs.
  set (m := a / 2 ^ (k - 52)) in *.
  assert (Hu : 2 ^ (k - 52) == 2 ^ k * 2 ^ (-52)).
  { replace (k - 52)%Z with (k + -52)%Z by lia. apply two_pow_add. }
  pose proof (two_pow_pos (k - 52)) as Hp.
  set (u := 2 ^ (k - 52)) in *.
  change (2 ^ (-53)) with (1 # 9007199254740992).
  change (2 ^ (-52)) with (1 # 4503599627370496) in Hu.
  split; nra.
Qed.

Lemma round64_error (x : Q) :
  2 ^ (-1022) <= x ->
  x * (1 - 2 ^ (-53)) <= round64 x /\ round64 x <= x * (1 + 2 ^ (-53)).
Proof.
  intros H. rewrite round64_pos; [apply round_pos_error, H|].
  pose proof (two_pow_pos (-1022)); lra.
Qed.


End Rounding.

Open Scope Z_scope.


Section ScanFacts.
Variable thresh : Z.
Variable a : list Z.
Variable w h : Z.

Local Abbreviation step := (scan_step thresh a w).
Local Abbreviation acc0 := (scan_init w h).
Local Abbreviation seen := (seen thresh a w h).
Local Abbreviation on_edges := (on_edges thresh a w h).
Local Abbreviation Inv := (Inv thresh a w h).

Lemma scan_row_as_fold (acc : Acc) (y : Z) :
    scan_row thresh a w acc y = foldl step acc ((fun x => (x, y)) <$> seqZ 0 w).
  Proof.
    unfold scan_row. generalize (seqZ 0 w) acc.
    induction l as [|x l IH]; intros acc'; [reflexivity|]. simpl. apply IH.
  Qed.

Lemma scan_as_fold : scan thresh a w h = foldl step acc0 (visit_order w h).
  Proof.
    unfold scan, visit_order. fold acc0. generalize (seqZ 0 h) acc0.
    induction l as [|y l IH]; intros acc; [reflexivity|].
    simpl. rewrite foldl_app, <- scan_row_as_fold. apply IH.
  Qed.

Lemma elem_of_visit_order (x y : Z) :
    (x, y) ∈ visit_order w h <-> 0 <= x < w /\ 0 <= y < h.
  Proof.
    unfold visit_order. rewrite list_elem_of_bind. split.
    - intros (y' & Hx & Hy). apply list_elem_of_fmap in Hx as (x' & Heq & Hx).
      inversion Heq; subst. apply elem_of_seqZ in Hx, Hy. lia.
    - intros [Hx Hy]. exists y. split.
      + apply list_elem_of_fmap. exists x. split; [reflexivity|]. apply elem_of_seqZ. lia.
      + apply elem_of_seqZ. lia.
  Qed.

  (** A pixel either is foreground and updates the accumulator, or leaves
      it unchanged. *)
Lemma step_cases (acc : Acc) (x y : Z) :
    0 <= x < w -> 0 <= y < h ->
    (exists alpha, at_index a (y * w + x) = Some alpha /\ thresh < alpha /\
       step acc (x, y) =
         {| x0 := Z.min x (x0 acc); y0 := Z.min y (y0 acc);
            x1 := Z.max x (x1 acc); y1 := Z.max y (y1 acc);
            sumA := sumA acc + alpha; sumX := sumX acc + alpha * x;
            sumY := sumY acc + alpha * y |}) \/
    (~ fg thresh a w h x y /\ step acc (x, y) = acc).
  Proof.
    intros Hx Hy. unfold step, scan_pixel. simpl.
    destruct (at_index a (y * w + x)) as [alpha|] eqn:Ha.
    - destruct (Z.ltb_spec thresh alpha) as [Hlt|Hge].
      + left. exists alpha. split; [reflexivity|]. split; [exact Hlt|].
        f_equal.
        * destruct (Z.ltb_spec x (x0 acc)); lia.
        * destruct (Z.ltb_spec y (y0 acc)); lia.
        * destruct (Z.ltb_spec (x1 acc) x); lia.
        * destruct (Z.ltb_spec (y1 acc) y); lia.
      + right. split; [|reflexivity].
        intros (_ & _ & alpha' & Ha' & Hlt). rewrite Ha in Ha'. inversion Ha'; subst. lia.
    - right. split; [|reflexivity].
      intros (_ & _ & alpha' & Ha' & _). rewrite Ha in Ha'. discriminate.
  Qed.

Lemma Inv_nil : Inv [] acc0.
  Proof.
    split.
    - intros x y Hin. inversion Hin.
    - left. split; [|reflexivity]. intros (x & y & Hin & _). inversion Hin.
  Qed.

Lemma on_edges_mono (l : list (Z * Z)) (p : Z * Z) (acc : Acc) :
    on_edges l acc -> on_edges (l ++ [p]) acc.
  Proof.
    intros ((ya & Ha1 & Ha2) & (yb & Hb1 & Hb2) & (xc & Hc1 & Hc2) & (xd & Hd1 & Hd2)).
    repeat split; eexists; (split; [apply elem_of_app; left; eassumption | assumption]).
  Qed.

Lemma Inv_step (l : list (Z * Z)) (acc : Acc) (x y : Z) :
    0 <= x < w -> 0 <= y < h ->
    Inv l acc -> Inv (l ++ [(x, y)]) (step acc (x, y)).
  Proof.
    intros Hx Hy [Hcover Hedges].
    assert (Hhere : (x, y) ∈ l ++ [(x, y)]) by (apply elem_of_app; right; constructor).
    destruct (step_cases acc x y Hx Hy) as [(alpha & Ha & Hlt & ->)|[Hnfg ->]].
    - assert (Hfg : fg thresh a w h x y) by (split; [|split]; eauto).
      split; simpl.
      + intros x' y' Hin Hfg'. apply elem_of_app in Hin as [Hin|Hin].
        * destruct (Hcover x' y' Hin Hfg'). lia.
        * apply list_elem_of_singleton in Hin. inversion Hin; subst. lia.
      + right. split; [exists x, y; auto|].
        destruct Hedges as [[Hns ->]|[Hs Hed]].
        * unfold on_edges; simpl.
          rewrite (Z.min_l x w), (Z.max_l x (-1)), (Z.min_l y h), (Z.max_l y (-1)) by lia.
          repeat split; eauto.
        * apply (on_edges_mono l (x, y)) in Hed.
          destruct Hed as (Ea & Eb & Ec & Ed). unfold on_edges; simpl.
          repeat split.
          -- destruct (Z.min_spec x (x0 acc)) as [[_ ->]|[_ ->]]; eauto.
          -- destruct (Z.max_spec x (x1 acc)) as [[_ ->]|[_ ->]]; eauto.
          -- destruct (Z.min_spec y (y0 acc)) as [[_ ->]|[_ ->]]; eauto.
          -- destruct (Z.max_spec y (y1 acc)) as [[_ ->]|[_ ->]]; eauto.
    - split.
      + intros x' y' Hin Hfg'. apply elem_of_app in Hin as [Hin|Hin].
        * apply Hcover; auto.
        * apply list_elem_of_singleton in Hin. inversion Hin; subst. contradiction.
      + destruct Hedges as [[Hns ->]|[Hs Hed]].
        * left. split; [|reflexivity].
          intros (x' & y' & Hin & Hf). apply elem_of_app in Hin as [Hin|Hin].
          -- apply Hns. exists x', y'. auto.
          -- apply list_elem_of_singleton in Hin. inversion Hin; subst. contradiction.
        * right. split.
          -- destruct Hs as (x' & y' & Hin & Hf). exists x', y'.
             split; [apply elem_of_app; auto | auto].
          -- apply on_edges_mono, Hed.
  Qed.

Lemma Inv_fold (l : list (Z * Z)) :
    (forall x y, (x, y) ∈ l -> 0 <= x < w /\ 0 <= y < h) ->
    Inv l (foldl step acc0 l).
  Proof.
    induction l as [|[x y] l IH] using rev_ind; intros Hin.
    - apply Inv_nil.
    - rewrite foldl_app. simpl.
      destruct (Hin x y) as [Hx Hy]; [apply elem_of_app; right; constructor|].
      apply Inv_step; [exact Hx | exact Hy |].
      apply IH. intros x' y' H'. apply Hin, elem_of_app. auto.
  Qed.

Lemma scan_Inv : Inv (visit_order w h) (scan thresh a w h).
  Proof.
    rewrite scan_as_fold. apply Inv_fold.
    intros x y Hin. apply elem_of_visit_order, Hin.
  Qed.

Lemma seen_all_iff : seen (visit_order w h) <-> exists x y, fg thresh a w h x y.
  Proof.
    split.
    - intros (x & y & _ & Hf). eauto.
    - intros (x & y & Hf). exists x, y. split; [|exact Hf].
      apply elem_of_visit_order. destruct Hf as (Hx & Hy & _). auto.
  Qed.

  (** No foreground pixel: the accumulator is untouched. *)
Lemma scan_none :
    (forall x y, ~ fg thresh a w h x y) -> scan thresh a w h = acc0.
  Proof.
    intros Hn. destruct scan_Inv as [_ [[_ H]|[Hs _]]]; [exact H|].
    apply seen_all_iff in Hs as (x & y & Hf). destruct (Hn x y Hf).
  Qed.

  (** Some foreground pixel: the accumulator holds the tight box. *)
Lemma scan_some :
    (exists x y, fg thresh a w h x y) ->
    let acc := scan thresh a w h in
    (forall x y, fg thresh a w h x y -> x0 acc <= x <= x1 acc /\ y0 acc <= y <= y1 acc) /\
    (exists y, fg thresh a w h (x0 acc) y) /\ (exists y, fg thresh a w h (x1 acc) y) /\
    (exists x, fg thresh a w h x (y0 acc)) /\ (exists x, fg thresh a w h x (y1 acc)).
  Proof.
    intros Hs acc. destruct scan_Inv as [Hcover [[Hns _]|[_ Hed]]].
    - destruct Hns. apply seen_all_iff, Hs.
    - split.
      + intros x y Hf. apply Hcover; [|exact Hf].
        apply elem_of_visit_order. destruct Hf as (Hx & Hy & _). auto.
      + destruct Hed as ((ya & _ & Ha) & (yb & _ & Hb) & (xc & _ & Hc) & (xd & _ & Hd)).
        repeat split; eauto.
  Qed.
End ScanFacts.

(** ** The alpha channel of an RGBA image *)

Lemma at_index_Some {A} (l : list A) (i : Z) (v : A) :
  at_index l i = Some v <-> 0 <= i /\ l !! Z.to_nat i = Some v.
Proof.
  unfold at_index. destruct (Z.ltb_spec i 0); split.
  - discriminate.
  - intros [? _]. lia.
  - auto with zarith.
  - intros [_ ?]. assumption.
Qed.

Lemma extractChannel_alpha (img : Image) :
  is_rgba img ->
  exists a, Sharp.extractChannel 3 img = Ok a /\
    forall x y, 0 <= x < width img -> 0 <= y < height img ->
      at_index a (y * width img + x) = alpha_at img x y.
Proof.
  intros [Hc (Hw & Hh & _ & Hlen & Hpx)].
  unfold Sharp.extractChannel. rewrite Hc. simpl.
  assert (Hsome : is_Some (mapM (fun p : Pixel => at_index p 3) (pixels img))).
  { apply mapM_is_Some. eapply Forall_impl; [exact Hpx|].
    intros p [Hp _]. simpl. unfold at_index. simpl.
    apply lookup_lt_is_Some. rewrite Hc in Hp. lia. }
  destruct Hsome as [a Ha]. rewrite Ha. exists a. split; [reflexivity|].
  intros x y Hx Hy. apply mapM_Some in Ha.
  unfold alpha_at, pixel_at.
  replace ((0 <=? x) && (x <? width img) && (0 <=? y) && (y <? height img))%bool
    with true by (symmetry; repeat (apply andb_true_intro; split); lia).
  assert (Hi : 0 <= y * width img + x) by nia.
  unfold at_index at 1 3.
  replace (y * width img + x <? 0) with false by (symmetry; apply Z.ltb_ge; exact Hi).
  set (i := Z.to_nat (y * width img + x)).
  destruct (pixels img !! i) as [p|] eqn:Hp.
  - destruct (Forall2_lookup_l _ _ _ _ _ Ha Hp) as (v & Hv & Hpv).
    rewrite Hv. simpl. symmetry. exact Hpv.
  - simpl. apply lookup_ge_None. apply lookup_ge_None in Hp.
    rewrite <- (Forall2_length _ _ _ Ha). exact Hp.
Qed.

Lemma alpha_at_in_range (img : Image) (x y alpha : Z) :
  alpha_at img x y = Some alpha -> 0 <= x < width img /\ 0 <= y < height img.
Proof.
  unfold alpha_at, pixel_at.
  destruct ((0 <=? x) && (x <? width img) && (0 <=? y) && (y <? height img))%bool eqn:Hr;
    [|discriminate].
  intros _. repeat (apply andb_prop in Hr as [Hr ?]). lia.
Qed.

Lemma fg_iff_foreground (cfg : Config) (img : Image) (a : list Z) :
  (forall x y, 0 <= x < width img -> 0 <= y < height img ->
     at_index a (y * width img + x) = alpha_at img x y) ->
  forall x y, fg (ALPHA_THRESH cfg) a (width img) (height img) x y
              <-> is_foreground cfg img x y.
Proof.
  intros Ha x y. split.
  - intros (Hx & Hy & alpha & Hl & Hlt). exists alpha. rewrite <- Ha by assumption. auto.
  - intros (alpha & Hl & Hlt). destruct (alpha_at_in_range _ _ _ _ Hl) as [Hx Hy].
    split; [exact Hx|]. split; [exact Hy|]. exists alpha. rewrite Ha by assumption. auto.
Qed.

(** ** The weighted sums *)

Section SumFacts.
Variable thresh : Z.
Variable a : list Z.
Variable w : Z.
Hypothesis thresh_nonneg : 0 <= thresh.


End SumFacts.

(** ** The analyzer on an RGBA image *)

Lemma analyzer_unfold (cfg : Config) (img : Image) (a : list Z) :
  Sharp.extractChannel 3 img = Ok a ->
  findAlphaBBoxAndCentroid cfg img =
    let acc := scan (ALPHA_THRESH cfg) a (width img) (height img) in
    if ((x1 acc <? x0 acc) || (y1 acc <? y0 acc))%bool then Ok None
    else Ok (Some {| Analysis.bbox := (x0 acc, y0 acc, x1 acc + 1, y1 acc + 1);
                     Analysis.cx := div (inject_Z (sumX acc)) (inject_Z (sumA acc));
                     Analysis.cy := div (inject_Z (sumY acc)) (inject_Z (sumA acc));
                     Analysis.w := width img; Analysis.h := height img |}).
Proof. intros Ha. unfold findAlphaBBoxAndCentroid. rewrite Ha. reflexivity. Qed.

(** C1: with at least one pixel above the threshold, the analyzer returns
    the half-open box [x0, y0, x1, y1] that contains every such pixel, whose
    first and last column and first and last row each contain one (so no
    smaller box does), and that lies within the image. *)
Theorem bbox_is_minimal (cfg : Config) (img : Image) :
  is_rgba img ->
  (exists x y, is_foreground cfg img x y) ->
  exists r bx0 by0 bx1 by1,
    findAlphaBBoxAndCentroid cfg img = Ok (Some r) /\
    Analysis.bbox r = (bx0, by0, bx1, by1) /\
    (0 <= bx0 < bx1 /\ bx1 <= width img) /\
    (0 <= by0 < by1 /\ by1 <= height img) /\
    (forall x y, is_foreground cfg img x y -> bx0 <= x < bx1 /\ by0 <= y < by1) /\
    (exists y, is_foreground cfg img bx0 y) /\
    (exists y, is_foreground cfg img (bx1 - 1) y) /\
    (exists x, is_foreground cfg img x by0) /\
    (exists x, is_foreground cfg img x (by1 - 1)).
Proof.
  intros Hrgba (xf & yf & Hf).
  destruct (extractChannel_alpha img Hrgba) as (a & Ha & Hlook).
  pose proof (fg_iff_foreground cfg img a Hlook) as Hiff.
  rewrite (analyzer_unfold cfg img a Ha).
  destruct (scan_some (ALPHA_THRESH cfg) a (width img) (height img)) as
    (Hcover & (ya & Hl) & (yb & Hr) & (xc & Ht) & (xd & Hb)).
  { exists xf, yf. apply Hiff, Hf. }
  set (acc := scan (ALPHA_THRESH cfg) a (width img) (height img)) in *.
  cbv zeta.
  destruct (Hcover xf yf) as [Hxr Hyr]; [apply Hiff, Hf|].
  replace ((x1 acc <? x0 acc) || (y1 acc <? y0 acc))%bool with false
    by (symmetry; apply orb_false_intro; apply Z.ltb_ge; lia).
  eexists. exists (x0 acc), (y0 acc), (x1 acc + 1), (y1 acc + 1).
  split; [reflexivity|]. split; [reflexivity|].
  pose proof Hl as (Hl1 & Hl2 & _). pose proof Hr as (Hr1 & Hr2 & _).
  pose proof Ht as (Ht1 & Ht2 & _). pose proof Hb as (Hb1 & Hb2 & _).
  split; [lia|]. split; [lia|]. split.
  - intros x y Hxy. apply Hiff in Hxy. destruct (Hcover x y Hxy). lia.
  - replace (x1 acc + 1 - 1) with (x1 acc) by lia.
    replace (y1 acc + 1 - 1) with (y1 acc) by lia.
    split; [|split; [|split]].
    + exists ya. apply Hiff, Hl.
    + exists yb. apply Hiff, Hr.
    + exists xc. apply Hiff, Ht.
    + exists xd. apply Hiff, Hb.
Qed.




(** ** A uniformly opaque alpha channel *)

Lemma tri_succ (n : Z) : tri (n + 1) = tri n + n.
Proof.
  unfold tri. replace ((n + 1) * (n + 1 - 1)) with (n * (n - 1) + n * 2) by lia.
  apply Z.div_add. lia.
Qed.

Section Uniform.
Variable thresh v : Z.
Variable a : list Z.
Variable w h : Z.
Hypothesis above : thresh < v.
Hypothesis w_pos : 1 <= w.
Hypothesis all_v : forall x y, 0 <= x < w -> 0 <= y < h -> at_index a (y * w + x) = Some v.

Lemma scan_pixel_uniform (y : Z) (acc : Acc) (x : Z) :
  0 <= x < w -> 0 <= y < h ->
  scan_pixel thresh a w y acc x =
    {| x0 := Z.min x (x0 acc); y0 := Z.min y (y0 acc);
       x1 := Z.max x (x1 acc); y1 := Z.max y (y1 acc);
       sumA := sumA acc + v; sumX := sumX acc + v * x; sumY := sumY acc + v * y |}.
Proof.
  intros Hx Hy. unfold scan_pixel. rewrite (all_v x y Hx Hy).
  replace (thresh <? v) with true by (symmetry; apply Z.ltb_lt, above).
  f_equal.
  - destruct (Z.ltb_spec x (x0 acc)); lia.
  - destruct (Z.ltb_spec y (y0 acc)); lia.
  - destruct (Z.ltb_spec (x1 acc) x); lia.
  - destruct (Z.ltb_spec (y1 acc) y); lia.
Qed.

Lemma scan_row_prefix_uniform (y : Z) (acc : Acc) (j : nat) :
  0 <= y < h -> Z.of_nat (S j) <= w ->
  foldl (scan_pixel thresh a w y) acc (seqZ 0 (Z.of_nat (S j))) =
    {| x0 := Z.min 0 (x0 acc); y0 := Z.min y (y0 acc);
       x1 := Z.max (Z.of_nat j) (x1 acc); y1 := Z.max y (y1 acc);
       sumA := sumA acc + v * Z.of_nat (S j);
       sumX := sumX acc + v * tri (Z.of_nat (S j));
       sumY := sumY acc + v * y * Z.of_nat (S j) |}.
Proof.
  intros Hy. induction j as [|j IH]; intros Hj.
  - simpl. rewrite scan_pixel_uniform by lia. f_equal; unfold tri; simpl; lia.
  - rewrite seqZ_S, foldl_app, IH by lia. simpl foldl.
    rewrite scan_pixel_uniform by lia. simpl.
    replace (Z.of_nat (S (S j))) with (Z.of_nat (S j) + 1) by lia.
    rewrite tri_succ. f_equal; lia.
Qed.

Lemma scan_row_uniform (y : Z) (acc : Acc) :
  0 <= y < h ->
  scan_row thresh a w acc y =
    {| x0 := Z.min 0 (x0 acc); y0 := Z.min y (y0 acc);
       x1 := Z.max (w - 1) (x1 acc); y1 := Z.max y (y1 acc);
       sumA := sumA acc + v * w;
       sumX := sumX acc + v * tri w;
       sumY := sumY acc + v * y * w |}.
Proof.
  intros Hy. unfold scan_row.
  replace (seqZ 0 w) with (seqZ 0 (Z.of_nat (S (Z.to_nat (w - 1))))) by (f_equal; lia).
  rewrite scan_row_prefix_uniform by lia.
  replace (Z.of_nat (S (Z.to_nat (w - 1)))) with w by lia.
  replace (Z.of_nat (Z.to_nat (w - 1))) with (w - 1) by lia.
  reflexivity.
Qed.

Lemma scan_rows_uniform (acc : Acc) (k : nat) :
  Z.of_nat (S k) <= h ->
  foldl (scan_row thresh a w) acc (seqZ 0 (Z.of_nat (S k))) =
    {| x0 := Z.min 0 (x0 acc); y0 := Z.min 0 (y0 acc);
       x1 := Z.max (w - 1) (x1 acc); y1 := Z.max (Z.of_nat k) (y1 acc);
       sumA := sumA acc + v * w * Z.of_nat (S k);
       sumX := sumX acc + v * Z.of_nat (S k) * tri w;
       sumY := sumY acc + v * w * tri (Z.of_nat (S k)) |}.
Proof.
  induction k as [|k IH]; intros Hk.
  - simpl. rewrite scan_row_uniform by lia.
    change (Z.of_nat 1) with 1. change (Z.of_nat 0) with 0. change (tri 1) with 0.
    f_equal; lia.
  - rewrite seqZ_S, foldl_app, IH by lia. simpl foldl.
    rewrite scan_row_uniform by lia. simpl.
    replace (Z.of_nat (S (S k))) with (Z.of_nat (S k) + 1) by lia.
    rewrite tri_succ. f_equal; lia.
Qed.

Lemma scan_uniform :
  1 <= h ->
  scan thresh a w h =
    {| x0 := 0; y0 := 0; x1 := w - 1; y1 := h - 1;
       sumA := v * w * h; sumX := v * h * tri w; sumY := v * w * tri h |}.
Proof.
  intros Hh. unfold scan.
  replace (seqZ 0 h) with (seqZ 0 (Z.of_nat (S (Z.to_nat (h - 1))))) by (f_equal; lia).
  rewrite scan_rows_uniform by lia. simpl.
  replace (Z.of_nat (S (Z.to_nat (h - 1)))) with h by lia.
  replace (Z.of_nat (Z.to_nat (h - 1))) with (h - 1) by lia.
  f_equal; lia.
Qed.
End Uniform.


(** * Arithmetic of the layout *)


Lemma tiny_le (B : Q) : (1 # 9007199254740992 <= B)%Q -> (2 ^ (-1022) <= B)%Q.
Proof.
  intros H. eapply Qle_trans; [|exact H].
  change (1 # 9007199254740992)%Q with (2 ^ (-53))%Q. apply two_pow_le. lia.
Qed.

Lemma round64_le_rel (x B : Q) :
  (x <= B)%Q -> (2 ^ (-1022) <= B)%Q -> (round64 x <= B * (1 + u53))%Q.
Proof.
  intros Hx HB. apply Qle_trans with (round64 B); [apply round64_mono, Hx|].
  apply round64_error, HB.
Qed.


Lemma Math_min_l (x y : Q) : (Math_min x y <= x)%Q.
Proof.
  unfold Math_min. destruct (Qle_bool x y) eqn:H; [lra|].
  destruct (Qlt_le_dec y x) as [Hlt|Hle]; [lra|].
  apply Qle_bool_iff in Hle. congruence.
Qed.

Lemma Math_min_r (x y : Q) : (Math_min x y <= y)%Q.
Proof.
  unfold Math_min. destruct (Qle_bool x y) eqn:H; [|lra].
  apply Qle_bool_iff, H.
Qed.



Lemma Qfloor_le_Z (x : Q) (z : Z) : (x < inject_Z (z + 1))%Q -> Qfloor x <= z.
Proof.
  intros H. pose proof (Qfloor_le x) as Hf.
  assert (Hlt : (inject_Z (Qfloor x) < inject_Z (z + 1))%Q) by lra.
  rewrite <- Zlt_Qlt in Hlt. lia.
Qed.

Lemma Qfloor_ge_Z (x : Q) (z : Z) : (inject_Z z <= x)%Q -> z <= Qfloor x.
Proof. intros H. rewrite <- (Qfloor_Z z). apply Qfloor_resp_le, H. Qed.


Lemma inject_Z_le_pow (z k : Z) : 0 <= k -> z <= 2 ^ k -> (inject_Z z <= 2 ^ k)%Q.
Proof. intros Hk H. rewrite two_pow_inject by lia. rewrite Zle_Qle in H. exact H. Qed.

(** The product [w * (M / w)], each operation rounded, stays below
    [S + 1] when [M <= S]. *)
Lemma resized_upper (M scale : Q) (S w : Z) :
  (M <= inject_Z S)%Q -> 1 <= S <= 2 ^ 50 -> 1 <= w <= 2 ^ 53 ->
  (scale <= div M (inject_Z w))%Q ->
  Z.max 1 (Math_floor (mul (inject_Z w) scale)) <= S.
Proof.
  intros HM [HS1 HS2] [Hw1 Hw2] Hscale.
  assert (HwQ : (1 <= inject_Z w)%Q) by (rewrite Zle_Qle in Hw1; exact Hw1).
  assert (HwQ2 : (inject_Z w <= 2 ^ 53)%Q) by (apply inject_Z_le_pow; lia).
  assert (HSQ : (1 <= inject_Z S)%Q) by (rewrite Zle_Qle in HS1; exact HS1).
  assert (HSQ2 : (inject_Z S <= 2 ^ 50)%Q) by (apply inject_Z_le_pow; lia).
  change (2 ^ 53)%Q with 9007199254740992%Q in HwQ2.
  change (2 ^ 50)%Q with 1125899906842624%Q in HSQ2.
  set (W := inject_Z w) in *. set (SQ := inject_Z S) in *.
  assert (Hnz : ~ (W == 0)%Q) by lra.
  pose proof (Qmult_div_r M W Hnz) as HMw.
  pose proof (Qmult_div_r SQ W Hnz) as HSw.
  set (r := (M / W)%Q) in *. set (rS := (SQ / W)%Q) in *.
  assert (Hr : (r <= rS)%Q) by nra.
  assert (HrS : (1 # 9007199254740992 <= rS)%Q) by nra.
  assert (Hq : (div M W <= rS * (1 + u53))%Q).
  { unfold div. fold r. apply round64_le_rel; [exact Hr | apply tiny_le, HrS]. }
  assert (Hprod : (W * scale <= SQ * (1 + u53))%Q) by (unfold u53 in *; nra).
  assert (Hp : (mul W scale <= SQ * (1 + u53) * (1 + u53))%Q).
  { unfold mul. apply round64_le_rel; [exact Hprod|]. apply tiny_le. unfold u53. nra. }
  assert (Hlt : (mul W scale < inject_Z (S + 1))%Q).
  { rewrite inject_Z_plus. fold SQ. change (inject_Z 1) with 1%Q. unfold u53 in *. nra. }
  apply Qfloor_le_Z in Hlt. unfold Math_floor. lia.
Qed.


Lemma layout_sizes (cfg : Config) (padPct : Q) (w h : Z) (c : option Centroid.t) :
  nw (layout cfg padPct w h c) =
    Z.max 1 (Math_floor (mul (inject_Z w) (scale cfg padPct w h))) /\
  nh (layout cfg padPct w h c) =
    Z.max 1 (Math_floor (mul (inject_Z h) (scale cfg padPct w h))).
Proof. destruct c; split; reflexivity. Qed.



Lemma default_maxContent :
  (maxContent default_config (PADDING_PCT default_config) == 1800)%Q.
Proof. vm_compute. reflexivity. Qed.



Lemma round64_one : (round64 1 == 1)%Q.
Proof. apply (round64_Z 1). simpl. lia. Qed.

Lemma maxContent_le_SIZE (cfg : Config) (padPct : Q) :
  1 <= SIZE cfg <= 2 ^ 53 -> (0 <= padPct)%Q ->
  (maxContent cfg padPct <= inject_Z (SIZE cfg))%Q.
Proof.
  intros [HS1 HS2] Hp. unfold maxContent, mul, sub.
  assert (Ht : (0 <= round64 (padPct * 2))%Q) by (apply round64_nonneg; lra).
  assert (Hs : (round64 (1 - round64 (padPct * 2)) <= 1)%Q).
  { rewrite <- round64_one at 2. apply round64_mono. lra. }
  assert (HSQ : (1 <= inject_Z (SIZE cfg))%Q) by (rewrite Zle_Qle in HS1; exact HS1).
  rewrite <- (round64_Z (SIZE cfg)) at 2 by lia.
  apply round64_mono. nra.
Qed.

(** Both resized sides fit the canvas. *)
Lemma resized_fits_canvas (cfg : Config) (padPct : Q) (w h : Z) (c : option Centroid.t) :
  1 <= SIZE cfg <= 2 ^ 50 -> (0 <= padPct)%Q ->
  1 <= w <= 2 ^ 53 -> 1 <= h <= 2 ^ 53 ->
  1 <= nw (layout cfg padPct w h c) <= SIZE cfg /\
  1 <= nh (layout cfg padPct w h c) <= SIZE cfg.
Proof.
  intros HS Hp Hw Hh.
  destruct (layout_sizes cfg padPct w h c) as [-> ->].
  assert (HM : (maxContent cfg padPct <= inject_Z (SIZE cfg))%Q).
  { apply maxContent_le_SIZE; [|exact Hp]. split; [lia|].
    transitivity (2 ^ 50); [lia | apply Z.pow_le_mono_r; lia]. }
  split; (split; [lia|]).
  - apply (resized_upper (maxContent cfg padPct)); try assumption. apply Math_min_l.
  - apply (resized_upper (maxContent cfg padPct)); try assumption. apply Math_min_r.
Qed.

(** ** The composited canvas *)





Lemma ensureAlpha_rgba (img : Image) : channels img = 4 -> Sharp.ensureAlpha img = img.
Proof. intros H. unfold Sharp.ensureAlpha, Sharp.hasAlpha. rewrite H. reflexivity. Qed.



(** ** Geometric centering is exact integer arithmetic *)

Lemma sub_Z (a b : Z) :
  Z.abs (a - b) <= 2 ^ 53 -> (sub (inject_Z a) (inject_Z b) == inject_Z (a - b))%Q.
Proof.
  intros H. unfold sub.
  assert (E : (inject_Z a - inject_Z b == inject_Z (a - b))%Q).
  { unfold Z.sub. rewrite inject_Z_plus, inject_Z_opp. reflexivity. }
  rewrite E. apply round64_Z, H.
Qed.

Lemma half_Z (z : Z) :
  Z.abs z <= 2 ^ 53 -> (div (inject_Z z) 2 == inject_Z z * 2 ^ (-1))%Q.
Proof.
  intros H. unfold div.
  assert (E : (inject_Z z / 2 == inject_Z z * 2 ^ (-1))%Q) by reflexivity.
  rewrite E. apply round64_dyadic; [exact H | lia].
Qed.

Lemma add_half_Z (z b : Z) :
  Z.abs (z + 2 * b) <= 2 ^ 53 ->
  (add (inject_Z z * 2 ^ (-1)) (inject_Z b) == inject_Z (z + 2 * b) * 2 ^ (-1))%Q.
Proof.
  intros H. unfold add.
  assert (E : (inject_Z z * 2 ^ (-1) + inject_Z b == inject_Z (z + 2 * b) * 2 ^ (-1))%Q).
  { rewrite inject_Z_plus, inject_Z_mult. change (2 ^ (-1))%Q with (1 # 2)%Q.
    change (inject_Z 2) with 2%Q. ring. }
  rewrite E. apply round64_dyadic; [exact H | lia].
Qed.

Lemma floor_half (z : Z) : Qfloor (inject_Z z * 2 ^ (-1)) = z / 2.
Proof.
  rewrite (Zdiv_Qdiv z 2). apply Qfloor_comp. reflexivity.
Qed.

Lemma bias_px_bound (cfg : Config) :
  1 <= SIZE cfg <= 2 ^ 50 -> (-1 <= V_BIAS_PCT cfg <= 1)%Q ->
  - SIZE cfg <= bias_px cfg <= SIZE cfg.
Proof.
  intros [HS1 HS2] [Hv1 Hv2]. unfold bias_px, Math_round, mul.
  assert (HSQ : (1 <= inject_Z (SIZE cfg))%Q) by (rewrite Zle_Qle in HS1; exact HS1).
  assert (H53 : Z.abs (SIZE cfg) <= 2 ^ 53).
  { rewrite Z.abs_eq by lia. transitivity (2 ^ 50); [lia | apply Z.pow_le_mono_r; lia]. }
  assert (Hup : (round64 (V_BIAS_PCT cfg * inject_Z (SIZE cfg)) <= inject_Z (SIZE cfg))%Q).
  { rewrite <- (round64_Z (SIZE cfg)) at 2 by exact H53. apply round64_mono. nra. }
  assert (Hlo : (inject_Z (- SIZE cfg) <= round64 (V_BIAS_PCT cfg * inject_Z (SIZE cfg)))%Q).
  { rewrite <- (round64_Z (- SIZE cfg)) by (rewrite Z.abs_opp; exact H53).
    apply round64_mono. rewrite inject_Z_opp. nra. }
  split.
  - apply Qfloor_ge_Z. lra.
  - apply Qfloor_le_Z. rewrite inject_Z_plus. change (inject_Z 1) with 1%Q. lra.
Qed.

Lemma geometric_layout (cfg : Config) (padPct : Q) (w h : Z) :
  1 <= SIZE cfg <= 2 ^ 50 -> (0 <= padPct)%Q -> (-1 <= V_BIAS_PCT cfg <= 1)%Q ->
  1 <= w <= 2 ^ 53 -> 1 <= h <= 2 ^ 53 ->
  let l := layout cfg padPct w h None in
  left l = Z.max 0 ((SIZE cfg - nw l) / 2) /\
  top l = Z.max 0 ((SIZE cfg - nh l) / 2 + bias_px cfg).
Proof.
  intros HS Hp Hv Hw Hh l.
  destruct (resized_fits_canvas cfg padPct w h None HS Hp Hw Hh) as [Hnw Hnh].
  fold l in Hnw, Hnh.
  pose proof (bias_px_bound cfg HS Hv) as Hb.
  assert (H50 : 2 ^ 50 = 1125899906842624) by reflexivity.
  assert (H53 : 2 ^ 53 = 9007199254740992) by reflexivity.
  split.
  - change (left l) with
      (Z.max 0 (Math_floor (div (sub (inject_Z (SIZE cfg)) (inject_Z (nw l))) 2))).
    f_equal. unfold Math_floor.
    rewrite <- floor_half. apply Qfloor_comp.
    unfold div at 1. rewrite sub_Z by lia. apply half_Z. lia.
  - change (top l) with
      (Z.max 0 (Math_floor (add (div (sub (inject_Z (SIZE cfg)) (inject_Z (nh l))) 2)
                                (inject_Z (bias_px cfg))))).
    f_equal. unfold Math_floor.
    replace ((SIZE cfg - nh l) / 2 + bias_px cfg)
      with ((SIZE cfg - nh l + 2 * bias_px cfg) / 2)
      by (rewrite (Z.mul_comm 2), Z.div_add by lia; reflexivity).
    rewrite <- floor_half. apply Qfloor_comp.
    rewrite <- add_half_Z by lia. unfold add.
    apply round64_proper.
    assert (E : (div (sub (inject_Z (SIZE cfg)) (inject_Z (nh l))) 2
                 == inject_Z (SIZE cfg - nh l) * 2 ^ (-1))%Q).
    { unfold div at 1. rewrite sub_Z by lia. apply half_Z. lia. }
    rewrite E. reflexivity.
Qed.

(** * The degenerate case and the placement *)

Lemma analyzer_none (cfg : Config) (img : Image) :
  is_rgba img -> (forall x y, ~ is_foreground cfg img x y) ->
  findAlphaBBoxAndCentroid cfg img = Ok None.
Proof.
  intros Hrgba Hnone.
  destruct (extractChannel_alpha img Hrgba) as (a & Ha & Hlook).
  pose proof (fg_iff_foreground cfg img a Hlook) as Hiff.
  rewrite (analyzer_unfold cfg img a Ha).
  rewrite scan_none by (intros x y Hf; apply (Hnone x y), Hiff, Hf).
  cbv zeta. simpl.
  destruct Hrgba as [_ (Hw & _)].
  replace (-1 <? width img) with true by (symmetry; apply Z.ltb_lt; lia).
  reflexivity.
Qed.

(** C2: when no pixel is above the threshold the analyzer returns [null],
    the whole image is the crop and there is no centroid, and the layout is
    the geometric centering of the resized image: left = (SIZE - nw) / 2
    and top = (SIZE - nh) / 2 + bias, rounded down and not below 0. *)
Theorem no_foreground_is_centered (cfg : Config) (img : Image) :
  is_rgba img -> width img <= 2 ^ 53 -> height img <= 2 ^ 53 ->
  1 <= SIZE cfg <= 2 ^ 50 -> (0 <= PADDING_PCT cfg)%Q -> (-1 <= V_BIAS_PCT cfg <= 1)%Q ->
  (forall x y, ~ is_foreground cfg img x y) ->
  findAlphaBBoxAndCentroid cfg img = Ok None /\
  cropSubject cfg img = Ok (img, None) /\
  exists l, placement cfg img = Ok l /\
    l = layout cfg (PADDING_PCT cfg) (width img) (height img) None /\
    left l = Z.max 0 ((SIZE cfg - nw l) / 2) /\
    top l = Z.max 0 ((SIZE cfg - nh l) / 2 + bias_px cfg).
Proof.
  intros Hrgba Hw53 Hh53 HS Hp Hv Hnone.
  pose proof (analyzer_none cfg img Hrgba Hnone) as Hnull.
  assert (Hcrop : cropSubject cfg img = Ok (img, None)).
  { unfold cropSubject. rewrite Hnull. reflexivity. }
  split; [exact Hnull|]. split; [exact Hcrop|].
  unfold placement. rewrite Hcrop. simpl.
  destruct Hrgba as [Hc (Hw & Hh & _)].
  rewrite (ensureAlpha_rgba img Hc).
  eexists. split; [reflexivity|]. split; [reflexivity|].
  apply geometric_layout; try assumption; lia.
Qed.

Lemma geometric_offsets_nonneg (cfg : Config) (padPct : Q) (w h : Z) :
  0 <= left (layout cfg padPct w h None) /\ 0 <= top (layout cfg padPct w h None).
Proof. simpl. split; apply Z.le_max_l. Qed.

(** C7: the offsets of the geometric branch are never negative, those of
    the centroid branch are the rounded values as they are, and for the
    lopsided 10 by 1 image the pipeline computes left = -481: the resized
    crop is pasted starting outside the canvas. *)
Theorem centroid_offsets_not_clamped :
  (forall cfg padPct w h,
     0 <= left (layout cfg padPct w h None) /\ 0 <= top (layout cfg padPct w h None)) /\
  (forall cfg padPct w h c,
     left (layout cfg padPct w h (Some c)) =
       Math_round (sub (div (inject_Z (SIZE cfg)) 2)
                       (mul (Centroid.cx c) (scale cfg padPct w h))) /\
     top (layout cfg padPct w h (Some c)) =
       Math_round (add (sub (div (inject_Z (SIZE cfg)) 2)
                            (mul (Centroid.cy c) (scale cfg padPct w h)))
                       (inject_Z (bias_px cfg)))) /\
  (exists l, placement default_config lopsided_image = Ok l /\
             nw l = 1800 /\ left l = -481).
Proof.
  split; [exact geometric_offsets_nonneg|]. split.
  - intros cfg padPct w h c. split; reflexivity.
  - eexists. split; [vm_compute; reflexivity|]. split; reflexivity.
Qed.

(** * The opaque 1000 by 600 scenario *)

Lemma extract_ok (l t w h : Z) (img : Image) :
  0 <= l -> 0 <= t -> 1 <= w -> 1 <= h -> l + w <= width img -> t + h <= height img ->
  exists crop, Sharp.extract l t w h img = Ok crop /\
    width crop = w /\ height crop = h /\ channels crop = channels img.
Proof.
  intros. unfold Sharp.extract.
  replace ((l <? 0) || (t <? 0) || (w <? 1) || (h <? 1) || (width img <? l + w)
           || (height img <? t + h))%bool with false.
  - eexists. split; [reflexivity|]. simpl. auto.
  - symmetry. repeat (apply orb_false_intro); apply Z.ltb_ge; lia.
Qed.

Lemma opaque_analysis (cfg : Config) (img : Image) :
  is_rgba img -> ALPHA_THRESH cfg < 255 ->
  (forall x y, 0 <= x < width img -> 0 <= y < height img -> alpha_at img x y = Some 255) ->
  findAlphaBBoxAndCentroid cfg img =
    Ok (Some {| Analysis.bbox := (0, 0, width img - 1 + 1, height img - 1 + 1);
                Analysis.cx := div (inject_Z (255 * height img * tri (width img)))
                                   (inject_Z (255 * width img * height img));
                Analysis.cy := div (inject_Z (255 * width img * tri (height img)))
                                   (inject_Z (255 * width img * height img));
                Analysis.w := width img; Analysis.h := height img |}).
Proof.
  intros Hrgba Hth Hall.
  destruct (extractChannel_alpha img Hrgba) as (a & Ha & Hlook).
  rewrite (analyzer_unfold cfg img a Ha).
  destruct Hrgba as [_ (Hw & Hh & _)].
  rewrite (scan_uniform (ALPHA_THRESH cfg) 255 a (width img) (height img) Hth Hw).
  - cbv zeta. cbn [x0 y0 x1 y1 sumA sumX sumY].
    replace ((width img - 1 <? 0) || (height img - 1 <? 0))%bool with false
      by (symmetry; apply orb_false_intro; apply Z.ltb_ge; lia).
    reflexivity.
  - intros x y Hx Hy. rewrite Hlook by assumption. apply Hall; assumption.
  - exact Hh.
Qed.

Lemma cropSubject_some (cfg : Config) (img crop : Image) (r : Analysis.t)
    (bx0 by0 bx1 by1 : Z) :
  findAlphaBBoxAndCentroid cfg img = Ok (Some r) ->
  Analysis.bbox r = (bx0, by0, bx1, by1) ->
  Sharp.extract bx0 by0 (bx1 - bx0) (by1 - by0) img = Ok crop ->
  cropSubject cfg img =
    Ok (crop, Some {| Centroid.cx := sub (Analysis.cx r) (inject_Z bx0);
                      Centroid.cy := sub (Analysis.cy r) (inject_Z by0) |}).
Proof.
  intros Han Hbox Hext. unfold cropSubject. rewrite Han.
  cbn [mbind result_bind]. rewrite Hbox, Hext. reflexivity.
Qed.

Lemma opaque_1000x600 (img : Image) :
  is_rgba img -> width img = 1000 -> height img = 600 ->
  (forall x y, 0 <= x < 1000 -> 0 <= y < 600 -> alpha_at img x y = Some 255) ->
  findAlphaBBoxAndCentroid default_config img = Ok (Some opaque_1000x600_analysis) /\
  placement default_config img = Ok {| nw := 1800; nh := 1080; left := 101; top := 461 |}.
Proof.
  intros Hrgba Hw Hh Hall.
  assert (Han : findAlphaBBoxAndCentroid default_config img
                = Ok (Some opaque_1000x600_analysis)).
  { rewrite (opaque_analysis default_config img Hrgba).
    - rewrite Hw, Hh. reflexivity.
    - reflexivity.
    - rewrite Hw, Hh. exact Hall. }
  split; [exact Han|].
  destruct (extract_ok 0 0 (1000 - 0) (600 - 0) img) as (crop & Hext & Hcw & Hch & Hcc);
    try lia.
  destruct Hrgba as [Hc _].
  unfold placement.
  rewrite (cropSubject_some default_config img crop opaque_1000x600_analysis
             0 0 1000 600 Han eq_refl Hext).
  cbn [mbind result_bind].
  rewrite (ensureAlpha_rgba crop) by congruence.
  rewrite Hcw, Hch. vm_compute. reflexivity.
Qed.

Lemma uniform_image_rgba (w h : Z) (p : Pixel) :
  1 <= w -> 1 <= h -> length p = 4%nat -> Forall (fun b => 0 <= b <= 255) p ->
  is_rgba (uniform_image w h p).
Proof.
  intros Hw Hh Hp Hb. unfold is_rgba, well_formed, uniform_image. simpl.
  rewrite Hp, length_replicate.
  repeat split; try lia.
  - apply Forall_replicate. split; [rewrite Hp; reflexivity | exact Hb].
Qed.

Lemma uniform_image_alpha (w h x y : Z) (p : Pixel) :
  0 <= x < w -> 0 <= y < h ->
  alpha_at (uniform_image w h p) x y = at_index p 3.
Proof.
  intros Hx Hy. unfold alpha_at, pixel_at, uniform_image. simpl.
  replace ((0 <=? x) && (x <? w) && (0 <=? y) && (y <? h))%bool with true
    by (symmetry; repeat (apply andb_true_intro; split); lia).
  assert (E : at_index (replicate (Z.to_nat (w * h)) p) (y * w + x) = Some p).
  { apply at_index_Some. split; [nia|]. apply lookup_replicate_2. nia. }
  rewrite E. reflexivity.
Qed.

(** C5, amended: for every fully opaque 1000 by 600 RGBA image under the
    default configuration the box is (0, 0, 1000, 600), maxContent is 1800,
    the scale is the binary64 value of 1.8 and the resized size is 1800 by
    1080; a box was found, so the placement is the centroid one, at
    left = 101 and top = 461.  Geometric centering of the same crop would
    be at left = 100 and top = 460. *)
Theorem opaque_scenario (img : Image) :
  is_rgba img -> width img = 1000 -> height img = 600 ->
  (forall x y, 0 <= x < 1000 -> 0 <= y < 600 -> alpha_at img x y = Some 255) ->
  (exists r, findAlphaBBoxAndCentroid default_config img = Ok (Some r) /\
             Analysis.bbox r = (0, 0, 1000, 600)) /\
  (maxContent default_config (PADDING_PCT default_config) == 1800)%Q /\
  (scale default_config (PADDING_PCT default_config) 1000 600 == round64 (18 # 10))%Q /\
  placement default_config img = Ok {| nw := 1800; nh := 1080; left := 101; top := 461 |} /\
  layout default_config (PADDING_PCT default_config) 1000 600 None = scenario_layout.
Proof.
  intros Hrgba Hw Hh Hall.
  destruct (opaque_1000x600 img Hrgba Hw Hh Hall) as [Han Hpl].
  split; [exists opaque_1000x600_analysis; split; [exact Han | reflexivity]|].
  split; [exact default_maxContent|].
  split; [vm_compute; reflexivity|].
  split; [exact Hpl|].
  vm_compute. reflexivity.
Qed.

Lemma opaque_scenario_witness :
  let img := uniform_image 1000 600 [0; 0; 0; 255] in
  is_rgba img /\
  placement default_config img = Ok {| nw := 1800; nh := 1080; left := 101; top := 461 |}.
Proof.
  intros img.
  assert (Hrgba : is_rgba img).
  { apply uniform_image_rgba; [lia | lia | reflexivity |].
    repeat constructor; lia. }
  split; [exact Hrgba|].
  apply (opaque_scenario img Hrgba eq_refl eq_refl).
  intros x y Hx Hy. apply (uniform_image_alpha 1000 600 x y [0; 0; 0; 255] Hx Hy).
Defined.

(** C5 as the specification states it fails: for the opaque black 1000 by
    600 image the pipeline does not place the resized image at
    left = 100, top = 460. *)
Lemma opaque_scenario_not_geometric :
  placement default_config (uniform_image 1000 600 [0; 0; 0; 255]) <> Ok scenario_layout.
Proof.
  assert (Hrgba : is_rgba (uniform_image 1000 600 [0; 0; 0; 255])).
  { apply uniform_image_rgba; [lia | lia | reflexivity |].
    repeat constructor; lia. }
  destruct (opaque_1000x600 (uniform_image 1000 600 [0; 0; 0; 255]) Hrgba eq_refl eq_refl)
    as [_ Hpl].
  { intros x y Hx Hy. apply (uniform_image_alpha 1000 600 x y [0; 0; 0; 255] Hx Hy). }
  rewrite Hpl. unfold scenario_layout. intros H. inversion H.
Qed.


(** * The alpha smoother *)

Section Smoother.
Variable vips : Instance.Options -> Image -> result Image.
Variable cfg : Config.

Ltac run_calls E :=
  do 6 (unfold mbind, Instance.M_bind, result_bind, Instance.toBuffer, Instance.run,
Instance.call_format, Instance.call_joinChannel, Instance.method,
Instance.sharp, Instance.decode, Instance.metadata, Instance.join;
        cbn; try rewrite E).

Ltac run_smoother E :=
  unfold smoothAlpha, Instance.smoothAlpha_body;
  unfold smoothing_options in E;
  run_calls E.

Lemma smoothAlpha_throw (img : Image) (msg : string) :
  vips (smoothing_options cfg) img = Throw msg -> smoothAlpha vips cfg img = Throw msg.
Proof. intros E. run_smoother E. reflexivity. Qed.

Lemma smoothAlpha_ok (img x : Image) :
  vips (smoothing_options cfg) img = Ok x ->
  smoothAlpha vips cfg img =
    let bytes := concat (pixels x) in
    let n := Z.to_nat (width img * height img) in
    if Z.of_nat (length bytes) <? width img * height img * 1 then Throw "memory area too small"
    else if Z.of_nat (length bytes) <? width img * height img * 3 then Throw "memory area too small"
    else Ok {| width := width img; height := height img; channels := 3 + 1;
               pixels := zip_with app (Instance.chunks 3 n bytes) (Instance.chunks 1 n bytes) |}.
Proof.
  intros E. run_smoother E.
  destruct (Z.of_nat (length (concat (pixels x))) <? width img * height img * 1);
    [reflexivity|].
  run_calls E.
  destruct (Z.of_nat (length (concat (pixels x))) <? width img * height img * 3);
    [reflexivity|].
  run_calls E. rewrite !Z.eqb_refl. cbn. reflexivity.
Qed.

(** Whenever the smoother returns, the first pixel of its result has its
    red byte also in its alpha channel: both were read from the one buffer
    that the shared instance produced. *)
Lemma smoothAlpha_first_pixel (img out : Image) :
  1 <= width img * height img ->
  smoothAlpha vips cfg img = Ok out ->
  width out = width img /\ height out = height img /\
  exists b0 b1 b2 rest, pixels out = [b0; b1; b2; b0] :: rest.
Proof.
  intros Hn Hout.
  destruct (vips (smoothing_options cfg) img) as [x|msg] eqn:E.
  - rewrite (smoothAlpha_ok img x E) in Hout. cbv zeta in Hout.
    destruct (Z.ltb_spec (Z.of_nat (length (concat (pixels x)))) (width img * height img * 1));
      [discriminate|].
    destruct (Z.ltb_spec (Z.of_nat (length (concat (pixels x)))) (width img * height img * 3));
      [discriminate|].
    inversion Hout; subst out; clear Hout. simpl.
    split; [reflexivity|]. split; [reflexivity|].
    destruct (concat (pixels x)) as [|b0 [|b1 [|b2 bytes]]]; simpl in *; try lia.
    destruct (Z.to_nat (width img * height img)) as [|n] eqn:En; [lia|].
    simpl. eauto.
  - rewrite (smoothAlpha_throw img msg E) in Hout. discriminate.
Qed.
End Smoother.

(** C8, what the code does instead: whenever [smoothAlpha] returns, its
    result has the dimensions of the input, and the red byte of its first
    pixel is also that pixel's alpha byte, because [rgb] and [alpha] are the
    same instance and both buffers come from the same pipeline. *)
Theorem smoothAlpha_red_in_alpha (vips : Instance.Options -> Image -> result Image)
    (cfg : Config) (img out : Image) :
  1 <= width img * height img ->
  smoothAlpha vips cfg img = Ok out ->
  width out = width img /\ height out = height img /\
  exists b0 b1 b2 rest, pixels out = [b0; b1; b2; b0] :: rest.
Proof. apply smoothAlpha_first_pixel. Qed.

Lemma smoothAlpha_red_in_alpha_witness :
  smoothAlpha vips_identity default_config one_pixel
    = Ok {| width := 1; height := 1; channels := 4; pixels := [[10; 20; 30; 10]] |} /\
  exists b0 b1 b2 rest,
    pixels {| width := 1; height := 1; channels := 4; pixels := [[10; 20; 30; 10]] |}
    = [b0; b1; b2; b0] :: rest.
Proof.
  split; [vm_compute; reflexivity|].
  apply (smoothAlpha_red_in_alpha vips_identity default_config one_pixel).
  - simpl. lia.
  - vm_compute. reflexivity.
Defined.

(** The guarantee the specification states for the smoother does not hold
    of a single opaque pixel of colour (10, 20, 30), whatever libvips
    computes for the shared instance. *)
Lemma smoothAlpha_loses_color (vips : Instance.Options -> Image -> result Image)
    (cfg : Config) :
  ~ smoothAlpha_as_specified vips cfg one_pixel.
Proof.
  intros (out & Hout & _ & _ & Hpx).
  destruct (smoothAlpha_first_pixel vips cfg one_pixel out ltac:(simpl; lia) Hout)
    as (Hw & Hh & b0 & b1 & b2 & rest & Hp).
  destruct (Hpx 0 0 [10; 20; 30; 255] eq_refl) as (a' & Ha & Hat).
  unfold pixel_at in Hat. rewrite Hw, Hh in Hat. simpl in Hat.
  unfold at_index in Hat. simpl in Hat. rewrite Hp in Hat. simpl in Hat.
  inversion Hat; subst. lia.
Qed.

(** * Background removal *)


(** * Encoder *)

Lemma env_or_unset (env : Env) (name dflt : string) :
  env !! name = None -> env_or env name dflt = dflt.
Proof. intros H. unfold env_or. rewrite H. reflexivity. Qed.

Lemma env_or_other (env : Env) (name other value dflt : string) :
  name <> other -> env_or (<[other := value]> env) name dflt = env_or env name dflt.
Proof. intros H. unfold env_or. rewrite lookup_insert_ne by congruence. reflexivity. Qed.

Lemma toSquareWebP_options (resample : Image -> Z -> Z -> Z -> Pixel)
    (over : Pixel -> Pixel -> Pixel) (cfg : Config) (env : Env)
    (crop : Image) (padPct : Q) (centroid : option Centroid.t) (out : WebPFile) :
  toSquareWebP resample over cfg env crop padPct centroid = Ok out ->
  wp_options out = webp_options env.
Proof.
  unfold toSquareWebP.
  destruct (Sharp.create _ _ _ _) as [canvas|]; [|discriminate]. cbn [mbind result_bind].
  destruct (Sharp.composite _ _ _ _ _) as [composed|]; [|discriminate]. cbn [mbind result_bind].
  unfold webp.
  destruct (negb _); [discriminate|]. destruct (negb _); [discriminate|].
  destruct (negb _); [discriminate|].
  intros H. inversion H. reflexivity.
Qed.

(** C10: every file [toSquareWebP] returns was encoded with lossless and
    near-lossless off and smart chroma subsampling on; its quality is read
    from QUALITY (82 when unset), its alpha quality from AQUALITY (80 when
    unset) and its effort from EFFORT (6 when unset), and setting one of
    these variables leaves the other two options unchanged. *)
Theorem encoder_policy (resample : Image -> Z -> Z -> Z -> Pixel)
    (over : Pixel -> Pixel -> Pixel) (cfg : Config) (env : Env)
    (crop : Image) (padPct : Q) (centroid : option Centroid.t) (out : WebPFile) :
  toSquareWebP resample over cfg env crop padPct centroid = Ok out ->
  let o := wp_options out in
  (lossless o = false /\ nearLossless o = false /\ smartSubsample o = true) /\
  (quality o = parseInt (env_or env "QUALITY" "82") /\
   alphaQuality o = parseInt (env_or env "AQUALITY" "80") /\
   effort o = parseInt (env_or env "EFFORT" "6")) /\
  ((env !! "QUALITY" = None -> quality o = Some 82) /\
   (env !! "AQUALITY" = None -> alphaQuality o = Some 80) /\
   (env !! "EFFORT" = None -> effort o = Some 6)) /\
  (forall v, quality (webp_options (<["AQUALITY" := v]> env)) = quality o /\
             effort (webp_options (<["AQUALITY" := v]> env)) = effort o) /\
  (forall v, alphaQuality (webp_options (<["QUALITY" := v]> env)) = alphaQuality o /\
             effort (webp_options (<["QUALITY" := v]> env)) = effort o).
Proof.
  intros Hout o. subst o. rewrite (toSquareWebP_options _ _ _ _ _ _ _ _ Hout).
  unfold webp_options. cbn [lossless nearLossless smartSubsample quality alphaQuality effort].
  split; [auto|]. split; [auto|]. split; [|split].
  - split; [|split]; intros H; rewrite env_or_unset by exact H; reflexivity.
  - intros v. rewrite !env_or_other by discriminate. auto.
  - intros v. rewrite !env_or_other by discriminate. auto.
Qed.


(** * The theorems at concrete inputs *)

Lemma lopsided_image_rgba : is_rgba lopsided_image.
Proof.
  unfold is_rgba, well_formed, lopsided_image. simpl.
  repeat split; try lia. repeat constructor; lia.
Qed.

Lemma bbox_is_minimal_witness :
  is_rgba lopsided_image /\
  (exists x y, is_foreground default_config lopsided_image x y) /\
  exists r bx0 by0 bx1 by1,
    findAlphaBBoxAndCentroid default_config lopsided_image = Ok (Some r) /\
    Analysis.bbox r = (bx0, by0, bx1, by1) /\
    (0 <= bx0 < bx1 /\ bx1 <= width lopsided_image) /\
    (0 <= by0 < by1 /\ by1 <= height lopsided_image) /\
    (forall x y, is_foreground default_config lopsided_image x y ->
       bx0 <= x < bx1 /\ by0 <= y < by1) /\
    (exists y, is_foreground default_config lopsided_image bx0 y) /\
    (exists y, is_foreground default_config lopsided_image (bx1 - 1) y) /\
    (exists x, is_foreground default_config lopsided_image x by0) /\
    (exists x, is_foreground default_config lopsided_image x (by1 - 1)).
Proof.
  assert (Hfg : exists x y, is_foreground default_config lopsided_image x y).
  { exists 0, 0, 17. split; [reflexivity | simpl; lia]. }
  split; [exact lopsided_image_rgba|]. split; [exact Hfg|].
  apply (bbox_is_minimal default_config lopsided_image lopsided_image_rgba Hfg).
Defined.


Lemma no_foreground_is_centered_witness :
  let img := uniform_image 2 2 [0; 0; 0; 0] in
  (forall x y, ~ is_foreground default_config img x y) /\
  findAlphaBBoxAndCentroid default_config img = Ok None /\
  cropSubject default_config img = Ok (img, None) /\
  exists l, placement default_config img = Ok l /\
    l = layout default_config (PADDING_PCT default_config) (width img) (height img) None /\
    left l = Z.max 0 ((SIZE default_config - nw l) / 2) /\
    top l = Z.max 0 ((SIZE default_config - nh l) / 2 + bias_px default_config).
Proof.
  intros img.
  assert (Hnone : forall x y, ~ is_foreground default_config img x y).
  { intros x y (alpha & Ha & Hlt).
    destruct (alpha_at_in_range _ _ _ _ Ha) as [Hx Hy].
    unfold img in Ha. rewrite (uniform_image_alpha 2 2 x y) in Ha by assumption.
    inversion Ha; subst alpha. simpl in Hlt. lia. }
  split; [exact Hnone|].
  apply (no_foreground_is_centered default_config img).
  - apply uniform_image_rgba; [lia | lia | reflexivity | repeat constructor; lia].
  - vm_compute. discriminate.
  - vm_compute. discriminate.
  - vm_compute. split; discriminate.
  - vm_compute. discriminate.
  - vm_compute. split; discriminate.
  - exact Hnone.
Defined.



Lemma encoder_policy_witness :
  exists out,
    toSquareWebP white_resample overlay_wins tiny_config ∅ one_pixel (1 # 4) None = Ok out /\
    lossless (wp_options out) = false /\
    nearLossless (wp_options out) = false /\
    smartSubsample (wp_options out) = true.
Proof.
  eexists. split; [vm_compute; reflexivity|].
  apply (encoder_policy white_resample overlay_wins tiny_config ∅ one_pixel (1 # 4) None).
  vm_compute. reflexivity.
Defined.

(** * Further properties of the code *)

(** * Box expansion *)

Lemma Math_round_nonneg (x : Q) : (0 <= x)%Q -> 0 <= Math_round x.
Proof.
  intros H. unfold Math_round. apply Qfloor_ge_Z. change (inject_Z 0) with 0%Q. lra.
Qed.

Lemma expand_pad_nonneg (m : Z) (padPct : Q) :
  0 <= m -> (0 <= padPct)%Q -> 0 <= Math_round (mul (inject_Z m) padPct).
Proof.
  intros Hm Hp. apply Math_round_nonneg. unfold mul. apply round64_nonneg.
  rewrite Zle_Qle in Hm. change (inject_Z 0) with 0%Q in Hm. nra.
Qed.

(** X1: for a padding fraction that is not negative, [expandBox] applied
    to a box lying in the image returns a box that contains it and still
    lies in the image. *)
Theorem expandBox_contains (bx0 by0 bx1 by1 w h : Z) (padPct : Q) :
  (0 <= padPct)%Q ->
  0 <= bx0 <= bx1 -> bx1 <= w -> 0 <= by0 <= by1 -> by1 <= h ->
  match expandBox (bx0, by0, bx1, by1) w h padPct with
  | (ex0, ey0, ex1, ey1) =>
      (0 <= ex0 <= bx0 /\ bx1 <= ex1 <= w) /\ (0 <= ey0 <= by0 /\ by1 <= ey1 <= h)
  end.
Proof.
  intros Hp Hx Hxw Hy Hyh. unfold expandBox.
  pose proof (expand_pad_nonneg (Z.max (bx1 - bx0) (by1 - by0)) padPct ltac:(lia) Hp) as Hpad.
  set (pad := Math_round _) in *. lia.
Qed.

Lemma expandBox_contains_witness :
  match expandBox (2, 3, 12, 8) 20 10 (1 # 10) with
  | (ex0, ey0, ex1, ey1) =>
      (0 <= ex0 <= 2 /\ 12 <= ex1 <= 20) /\ (0 <= ey0 <= 3 /\ 8 <= ey1 <= 10)
  end.
Proof.
  apply (expandBox_contains 2 3 12 8 20 10 (1 # 10)); try lia.
  vm_compute. discriminate.
Defined.

(** X2: with a padding fraction of zero, [expandBox] returns a box lying in
    the image unchanged. *)
Theorem expandBox_zero (bx0 by0 bx1 by1 w h : Z) (padPct : Q) :
  (padPct == 0)%Q ->
  0 <= bx0 -> bx1 <= w -> 0 <= by0 -> by1 <= h ->
  expandBox (bx0, by0, bx1, by1) w h padPct = (bx0, by0, bx1, by1).
Proof.
  intros Hp Hx Hxw Hy Hyh. unfold expandBox.
  assert (Hpad : Math_round (mul (inject_Z (Z.max (bx1 - bx0) (by1 - by0))) padPct) = 0).
  { unfold Math_round, mul.
    assert (E : (round64 (inject_Z (Z.max (bx1 - bx0) (by1 - by0)) * padPct) == 0)%Q).
    { rewrite Hp, Qmult_0_r. reflexivity. }
    rewrite (Qfloor_comp _ (0 + (1 # 2))%Q) by (rewrite E; reflexivity).
    reflexivity. }
  rewrite Hpad. repeat f_equal; lia.
Qed.

Lemma expandBox_zero_witness : expandBox (2, 3, 12, 8) 20 10 0 = (2, 3, 12, 8).
Proof. apply (expandBox_zero 2 3 12 8 20 10 0); try lia. reflexivity. Defined.

(** * More on the layout *)

Lemma inject_Z_ge1 (z : Z) : 1 <= z -> (1 <= inject_Z z)%Q.
Proof. intros H. rewrite Zle_Qle in H. exact H. Qed.

Lemma resized_side_mono (s : Q) (w h : Z) :
  1 <= w <= h ->
  Z.max 1 (Math_floor (mul (inject_Z w) s)) <= Z.max 1 (Math_floor (mul (inject_Z h) s)).
Proof.
  intros [Hw Hwh].
  assert (HwQ : (1 <= inject_Z w)%Q) by (apply inject_Z_ge1; lia).
  assert (HhQ : (inject_Z w <= inject_Z h)%Q) by (rewrite Zle_Qle in Hwh; exact Hwh).
  destruct (Qlt_le_dec s 0) as [Hneg|Hpos].
  - assert (Hle : Math_floor (mul (inject_Z w) s) <= 0).
    { unfold Math_floor, mul. apply Qfloor_le_Z. change (inject_Z (0 + 1)) with 1%Q.
      assert (round64 (inject_Z w * s) <= 0)%Q by (apply round64_nonpos; nra). lra. }
    lia.
  - assert (Hle : Math_floor (mul (inject_Z w) s) <= Math_floor (mul (inject_Z h) s)).
    { unfold Math_floor, mul. apply Qfloor_resp_le, round64_mono. nra. }
    lia.
Qed.

(** X3: the resizing keeps the orientation of the crop, for every
    configuration: a crop no wider than high is resized no wider than
    high, and a crop no higher than wide no higher than wide. *)
Theorem layout_keeps_orientation (cfg : Config) (padPct : Q) (w h : Z)
    (c : option Centroid.t) :
  1 <= w -> 1 <= h ->
  let l := layout cfg padPct w h c in
  (w <= h -> nw l <= nh l) /\ (h <= w -> nh l <= nw l).
Proof.
  intros Hw Hh l. destruct (layout_sizes cfg padPct w h c) as [Enw Enh].
  fold l in Enw, Enh. rewrite Enw, Enh.
  split; intros Hle; apply resized_side_mono; lia.
Qed.

Lemma layout_keeps_orientation_witness :
  let l := layout default_config (PADDING_PCT default_config) 21 1 None in
  (21 <= 1 -> nw l <= nh l) /\ (1 <= 21 -> nh l <= nw l).
Proof.
  apply (layout_keeps_orientation default_config (PADDING_PCT default_config) 21 1 None); lia.
Defined.

Lemma div_ge_one (M : Q) (w : Z) :
  1 <= w -> (inject_Z w <= M)%Q -> (1 <= div M (inject_Z w))%Q.
Proof.
  intros Hw HM. unfold div. rewrite <- round64_one. apply round64_mono.
  pose proof (inject_Z_ge1 w Hw).
  apply Qle_shift_div_l; lra.
Qed.

Lemma div_le_one (M : Q) (w : Z) :
  1 <= w -> (M <= inject_Z w)%Q -> (div M (inject_Z w) <= 1)%Q.
Proof.
  intros Hw HM. unfold div. rewrite <- round64_one. apply round64_mono.
  pose proof (inject_Z_ge1 w Hw).
  apply Qle_shift_div_r; lra.
Qed.

Lemma floor_mul_ge (s : Q) (w : Z) :
  1 <= w <= 2 ^ 53 -> (1 <= s)%Q -> w <= Z.max 1 (Math_floor (mul (inject_Z w) s)).
Proof.
  intros [Hw Hw53] Hs. pose proof (inject_Z_ge1 w Hw).
  assert (w <= Math_floor (mul (inject_Z w) s)); [|lia].
  unfold Math_floor, mul. apply Qfloor_ge_Z.
  rewrite <- (round64_Z w) at 1 by lia. apply round64_mono. nra.
Qed.

Lemma floor_mul_le (s : Q) (w : Z) :
  1 <= w <= 2 ^ 53 -> (s <= 1)%Q -> Z.max 1 (Math_floor (mul (inject_Z w) s)) <= w.
Proof.
  intros [Hw Hw53] Hs. pose proof (inject_Z_ge1 w Hw).
  assert (Math_floor (mul (inject_Z w) s) <= w); [|lia].
  unfold Math_floor, mul. apply Qfloor_le_Z.
  rewrite inject_Z_plus. change (inject_Z 1) with 1%Q.
  assert (round64 (inject_Z w * s) <= inject_Z w)%Q.
  { rewrite <- (round64_Z w) at 2 by lia. apply round64_mono. nra. }
  lra.
Qed.

(** X4: a crop both of whose sides are at most [maxContent] is never
    shrunk, and a crop one of whose sides is at least [maxContent] is
    never enlarged, on either axis. *)
Theorem layout_scaling_direction (cfg : Config) (padPct : Q) (w h : Z)
    (c : option Centroid.t) :
  1 <= w <= 2 ^ 53 -> 1 <= h <= 2 ^ 53 ->
  let l := layout cfg padPct w h c in
  let M := maxContent cfg padPct in
  ((inject_Z w <= M)%Q -> (inject_Z h <= M)%Q -> w <= nw l /\ h <= nh l) /\
  ((M <= inject_Z w)%Q \/ (M <= inject_Z h)%Q -> nw l <= w /\ nh l <= h).
Proof.
  intros Hw Hh l M. destruct (layout_sizes cfg padPct w h c) as [Enw Enh].
  fold l in Enw, Enh. rewrite Enw, Enh. unfold scale. fold M.
  split.
  - intros HwM HhM.
    assert (Hs : (1 <= Math_min (div M (inject_Z w)) (div M (inject_Z h)))%Q).
    { pose proof (div_ge_one M w ltac:(lia) HwM). pose proof (div_ge_one M h ltac:(lia) HhM).
      unfold Math_min. destruct (Qle_bool _ _); assumption. }
    split; apply floor_mul_ge; assumption.
  - intros Hbig.
    assert (Hs : (Math_min (div M (inject_Z w)) (div M (inject_Z h)) <= 1)%Q).
    { destruct Hbig as [HM|HM].
      - eapply Qle_trans; [apply Math_min_l | apply div_le_one; [lia | exact HM]].
      - eapply Qle_trans; [apply Math_min_r | apply div_le_one; [lia | exact HM]]. }
    split; apply floor_mul_le; assumption.
Qed.

Lemma layout_scaling_direction_witness :
  let l := layout default_config (PADDING_PCT default_config) 1000 600 None in
  (1000 <= nw l /\ 600 <= nh l) /\
  let l' := layout default_config (PADDING_PCT default_config) 3600 10 None in
  (nw l' <= 3600 /\ nh l' <= 10).
Proof.
  split.
  - apply (layout_scaling_direction default_config (PADDING_PCT default_config) 1000 600 None).
    + vm_compute. split; discriminate.
    + vm_compute. split; discriminate.
    + vm_compute. discriminate.
    + vm_compute. discriminate.
  - apply (layout_scaling_direction default_config (PADDING_PCT default_config) 3600 10 None).
    + vm_compute. split; discriminate.
    + vm_compute. split; discriminate.
    + left. vm_compute. discriminate.
Defined.

(** X5: without a centroid the resized image lies inside the canvas
    horizontally, its left and right margins differing by at most one
    pixel; with a vertical bias of zero pixels the same holds
    vertically. *)
Theorem geometric_layout_is_centered (cfg : Config) (padPct : Q) (w h : Z) :
  1 <= SIZE cfg <= 2 ^ 50 -> (0 <= padPct)%Q -> (-1 <= V_BIAS_PCT cfg <= 1)%Q ->
  1 <= w <= 2 ^ 53 -> 1 <= h <= 2 ^ 53 ->
  let l := layout cfg padPct w h None in
  (0 <= left l /\ left l + nw l <= SIZE cfg /\
   0 <= (SIZE cfg - (left l + nw l)) - left l <= 1) /\
  (bias_px cfg = 0 ->
   0 <= top l /\ top l + nh l <= SIZE cfg /\
   0 <= (SIZE cfg - (top l + nh l)) - top l <= 1).
Proof.
  intros HS Hp Hv Hw Hh l.
  destruct (geometric_layout cfg padPct w h HS Hp Hv Hw Hh) as [El Et].
  destruct (resized_fits_canvas cfg padPct w h None HS Hp Hw Hh) as [Hnw Hnh].
  fold l in El, Et, Hnw, Hnh.
  split.
  - rewrite El.
    pose proof (Z.div_mod (SIZE cfg - nw l) 2 ltac:(lia)).
    pose proof (Z.mod_pos_bound (SIZE cfg - nw l) 2 ltac:(lia)). lia.
  - intros Hb. rewrite Et, Hb.
    pose proof (Z.div_mod (SIZE cfg - nh l) 2 ltac:(lia)).
    pose proof (Z.mod_pos_bound (SIZE cfg - nh l) 2 ltac:(lia)). lia.
Qed.

Lemma geometric_layout_is_centered_witness :
  let l := layout default_config (PADDING_PCT default_config) 21 1 None in
  (0 <= left l /\ left l + nw l <= 2000 /\ 0 <= (2000 - (left l + nw l)) - left l <= 1) /\
  (bias_px default_config = 0 ->
   0 <= top l /\ top l + nh l <= 2000 /\ 0 <= (2000 - (top l + nh l)) - top l <= 1).
Proof.
  apply (geometric_layout_is_centered default_config (PADDING_PCT default_config) 21 1).
  - vm_compute. split; discriminate.
  - vm_compute. discriminate.
  - vm_compute. split; discriminate.
  - vm_compute. split; discriminate.
  - vm_compute. split; discriminate.
Defined.

(** * The pasted rectangle *)





(** * More on the analyzer *)

(** X7: on an RGBA image the analyzer returns [null] exactly when no pixel
    has an alpha above the threshold. *)
Theorem analyzer_null_iff (cfg : Config) (img : Image) :
  is_rgba img ->
  (findAlphaBBoxAndCentroid cfg img = Ok None <->
   forall x y, ~ is_foreground cfg img x y).
Proof.
  intros Hrgba. split; [|apply analyzer_none, Hrgba].
  intros Hnull x y Hf.
  destruct (extractChannel_alpha img Hrgba) as (a & Ha & Hlook).
  pose proof (fg_iff_foreground cfg img a Hlook) as Hiff.
  rewrite (analyzer_unfold cfg img a Ha) in Hnull. cbv zeta in Hnull.
  destruct (scan_some (ALPHA_THRESH cfg) a (width img) (height img)) as (Hcover & _).
  { exists x, y. apply Hiff, Hf. }
  destruct (Hcover x y) as [Hx Hy]; [apply Hiff, Hf|].
  set (acc := scan (ALPHA_THRESH cfg) a (width img) (height img)) in *.
  replace ((x1 acc <? x0 acc) || (y1 acc <? y0 acc))%bool with false in Hnull
    by (symmetry; apply orb_false_intro; apply Z.ltb_ge; lia).
  discriminate.
Qed.

Lemma analyzer_null_iff_witness :
  findAlphaBBoxAndCentroid default_config (uniform_image 2 2 [0; 0; 0; 0]) = Ok None <->
  forall x y, ~ is_foreground default_config (uniform_image 2 2 [0; 0; 0; 0]) x y.
Proof.
  apply (analyzer_null_iff default_config (uniform_image 2 2 [0; 0; 0; 0])).
  apply uniform_image_rgba; [lia | lia | reflexivity | repeat constructor; lia].
Defined.








(** * The cropper *)

Lemma length_bind_rows {A} (f : Z -> list A) (n : nat) (ys : list Z) :
  (forall y, y ∈ ys -> length (f y) = n) ->
  length (ys ≫= f) = (length ys * n)%nat.
Proof.
  induction ys as [|y ys IH]; intros Hrows; [reflexivity|].
  rewrite bind_cons, List.length_app, Hrows by constructor.
  rewrite IH by (intros y' Hy'; apply Hrows; constructor; exact Hy'). simpl. lia.
Qed.

Lemma lookup_bind_rows {A} (f : Z -> list A) (n : nat) (i j : nat) (t h : Z) :
  (forall y, t <= y < t + h -> length (f y) = n) ->
  Z.of_nat i < h -> (j < n)%nat ->
  (seqZ t h ≫= f) !! (i * n + j)%nat = f (t + Z.of_nat i) !! j.
Proof.
  revert t h. induction i as [|i IH]; intros t h Hrows Hi Hj.
  - rewrite seqZ_cons by lia. rewrite bind_cons.
    rewrite lookup_app_l by (rewrite Hrows by lia; simpl; lia).
    simpl. f_equal. f_equal. lia.
  - rewrite seqZ_cons by lia. rewrite bind_cons.
    rewrite lookup_app_r by (rewrite Hrows by lia; simpl; lia).
    rewrite Hrows by lia.
    replace (S i * n + j - n)%nat with (i * n + j)%nat by (simpl; lia).
    rewrite IH; [f_equal; f_equal; lia | | lia | exact Hj].
    intros y Hy. apply Hrows. lia.
Qed.

Section Extract.
Variable img : Image.
Variable l t w h : Z.
Hypothesis img_len : Z.of_nat (length (pixels img)) = width img * height img.
Hypothesis Hl : 0 <= l.
Hypothesis Ht : 0 <= t.
Hypothesis Hw : 1 <= w.
Hypothesis Hh : 1 <= h.
Hypothesis Hlw : l + w <= width img.
Hypothesis Hth : t + h <= height img.

Local Abbreviation row :=
  (fun y : Z => take (Z.to_nat w) (drop (Z.to_nat (y * width img + l)) (pixels img))).

Lemma extract_row_length (y : Z) : t <= y < t + h -> length (row y) = Z.to_nat w.
Proof.
  intros Hy. cbv beta. rewrite length_take_le; [reflexivity|]. rewrite length_drop. nia.
Qed.

Lemma extract_facts :
  exists crop,
    Sharp.extract l t w h img = Ok crop /\
    width crop = w /\ height crop = h /\ channels crop = channels img /\
    Z.of_nat (length (pixels crop)) = w * h /\
    (forall P : Pixel -> Prop, Forall P (pixels img) -> Forall P (pixels crop)) /\
    forall x y, 0 <= x < w -> 0 <= y < h ->
      pixel_at crop x y = pixel_at img (l + x) (t + y).
Proof.
  unfold Sharp.extract.
  replace ((l <? 0) || (t <? 0) || (w <? 1) || (h <? 1) || (width img <? l + w)
           || (height img <? t + h))%bool with false
    by (symmetry; repeat (apply orb_false_intro); apply Z.ltb_ge; lia).
  eexists. split; [reflexivity|]. simpl.
  split; [reflexivity|]. split; [reflexivity|]. split; [reflexivity|].
  split; [|split].
  - rewrite (length_bind_rows row (Z.to_nat w)).
    + rewrite length_seqZ. nia.
    + intros y Hy. apply elem_of_seqZ in Hy. apply extract_row_length. lia.
  - intros P HP. apply Forall_bind. apply Forall_forall. intros y _.
    apply Forall_take, Forall_drop, HP.
  - intros x y Hx Hy. unfold pixel_at. simpl.
    replace ((0 <=? x) && (x <? w) && (0 <=? y) && (y <? h))%bool with true
      by (symmetry; repeat (apply andb_true_intro; split); lia).
    replace ((0 <=? l + x) && (l + x <? width img) && (0 <=? t + y)
             && (t + y <? height img))%bool with true
      by (symmetry; repeat (apply andb_true_intro; split); lia).
    unfold at_index.
    replace (y * w + x <? 0) with false by (symmetry; apply Z.ltb_ge; nia).
    replace ((t + y) * width img + (l + x) <? 0) with false
      by (symmetry; apply Z.ltb_ge; nia).
    replace (Z.to_nat (y * w + x)) with (Z.to_nat y * Z.to_nat w + Z.to_nat x)%nat by nia.
    rewrite (lookup_bind_rows row (Z.to_nat w) (Z.to_nat y) (Z.to_nat x) t h);
      [| intros y' Hy'; apply extract_row_length; lia | lia | lia].
    cbv beta. rewrite Z2Nat.id by lia.
    rewrite lookup_take_lt by lia. rewrite lookup_drop. f_equal. nia.
Qed.
End Extract.

(** What the cropper returns on an RGBA image. *)
Lemma cropSubject_facts (cfg : Config) (img : Image) :
  is_rgba img ->
  exists crop c,
    cropSubject cfg img = Ok (crop, c) /\
    is_rgba crop /\ width crop <= width img /\ height crop <= height img /\
    match c with
    | None => findAlphaBBoxAndCentroid cfg img = Ok None /\ crop = img
    | Some _ =>
        exists r bx0 by0 bx1 by1,
          findAlphaBBoxAndCentroid cfg img = Ok (Some r) /\
          Analysis.bbox r = (bx0, by0, bx1, by1) /\
          width crop = bx1 - bx0 /\ height crop = by1 - by0 /\
          forall x y, 0 <= x < width crop -> 0 <= y < height crop ->
            pixel_at crop x y = pixel_at img (bx0 + x) (by0 + y)
    end.
Proof.
  intros Hrgba.
  destruct (extractChannel_alpha img Hrgba) as (a & Ha & Hlook).
  pose proof (analyzer_unfold cfg img a Ha) as Hun. cbv zeta in Hun.
  pose proof (scan_Inv (ALPHA_THRESH cfg) a (width img) (height img)) as [_ HI].
  set (acc := scan (ALPHA_THRESH cfg) a (width img) (height img)) in *.
  pose proof Hrgba as [Hc (Hw & Hh & Hch & Hlen & Hpx)].
  destruct ((x1 acc <? x0 acc) || (y1 acc <? y0 acc))%bool eqn:Hb.
  - exists img, None. unfold cropSubject. rewrite Hun. simpl.
    split; [reflexivity|]. split; [exact Hrgba|]. split; [lia|]. split; [lia|].
    split; reflexivity.
  - apply orb_false_elim in Hb as [Hb1 Hb2]. apply Z.ltb_ge in Hb1, Hb2.
    assert (Hbox : 0 <= x0 acc /\ x1 acc < width img /\ 0 <= y0 acc /\ y1 acc < height img).
    { destruct HI as [[_ Hz]|[_ Hed]].
      - rewrite Hz in Hb1. simpl in Hb1. lia.
      - destruct Hed as ((ya & _ & (Ha1 & _)) & (yb & _ & (Hb' & _)) &
                         (xc & _ & (_ & Hc' & _)) & (xd & _ & (_ & Hd' & _))). lia. }
    destruct (extract_facts img (x0 acc) (y0 acc) (x1 acc + 1 - x0 acc) (y1 acc + 1 - y0 acc))
      as (crop & Hext & Hcw & Hchh & Hcc & Hcl & Hcp & Hcpx); try lia.
    exists crop. eexists.
    split.
    { apply (cropSubject_some cfg img crop _ (x0 acc) (y0 acc) (x1 acc + 1) (y1 acc + 1) Hun).
      - reflexivity.
      - exact Hext. }
    split.
    { split; [congruence|]. unfold well_formed.
      rewrite Hcw, Hchh, Hcc. repeat split; try lia.
      apply (Hcp _ Hpx). }
    split; [lia|]. split; [lia|].
    eexists. exists (x0 acc), (y0 acc), (x1 acc + 1), (y1 acc + 1).
    split; [exact Hun|]. split; [reflexivity|]. split; [exact Hcw|]. split; [exact Hchh|].
    intros x y Hx Hy. apply Hcpx; lia.
Qed.

(** X10: for every RGBA image [cropSubject] returns (the extraction never
    throws): a well-formed RGBA crop no larger than the image; when the
    analyzer found a box, the crop has the size of the box and its pixel
    (x, y) is pixel (x0 + x, y0 + y) of the image, and there is a
    centroid; when it found none, the crop is the image and there is no
    centroid. *)
Theorem cropSubject_returns_the_box (cfg : Config) (img : Image) :
  is_rgba img ->
  exists crop c,
    cropSubject cfg img = Ok (crop, c) /\
    is_rgba crop /\ width crop <= width img /\ height crop <= height img /\
    match c with
    | None => findAlphaBBoxAndCentroid cfg img = Ok None /\ crop = img
    | Some _ =>
        exists r bx0 by0 bx1 by1,
          findAlphaBBoxAndCentroid cfg img = Ok (Some r) /\
          Analysis.bbox r = (bx0, by0, bx1, by1) /\
          width crop = bx1 - bx0 /\ height crop = by1 - by0 /\
          forall x y, 0 <= x < width crop -> 0 <= y < height crop ->
            pixel_at crop x y = pixel_at img (bx0 + x) (by0 + y)
    end.
Proof.
  exact (cropSubject_facts cfg img).
Qed.

Lemma cropSubject_returns_the_box_witness :
  exists crop c,
    cropSubject default_config lopsided_image = Ok (crop, c) /\
    is_rgba crop /\ width crop <= 10 /\ height crop <= 1.
Proof.
  destruct (cropSubject_returns_the_box default_config lopsided_image lopsided_image_rgba)
    as (crop & c & H1 & H2 & H3 & H4 & _).
  exists crop, c. auto.
Defined.




(** * One file, end to end *)



(** * Directory traversal *)

Lemma Dirent_nested_ind (P : Dirent -> Prop) :
  (forall name, P (File name)) ->
  (forall name sub, Forall P sub -> P (Directory name sub)) ->
  forall d, P d.
Proof.
  intros HF HD. fix IH 1. intros [name|name sub].
  - apply HF.
  - apply HD. induction sub as [|d sub IHsub]; constructor; [apply IH | exact IHsub].
Qed.

Lemma elem_of_flat_map {A B} (f : A -> list B) (l : list A) (y : B) :
  y ∈ flat_map f l <-> exists x, x ∈ l /\ y ∈ f x.
Proof.
  rewrite list_elem_of_In, in_flat_map. split; intros (x & H1 & H2); exists x;
    split; try (apply list_elem_of_In; assumption); apply list_elem_of_In; assumption.
Qed.

Lemma walk_entry_spec (d : Dirent) :
  forall dir p,
    p ∈ walk_entry dir d <->
    exists dirs name,
      p = dir ++ dirs ++ [name] /\ located [d] dirs name /\ has_image_ext name = true.
Proof.
  induction d as [name|name sub IH] using Dirent_nested_ind; intros dir p.
  - simpl. split.
    + destruct (has_image_ext name) eqn:E; intros Hin; [|inversion Hin].
      apply list_elem_of_singleton in Hin. subst p.
      exists [], name. split; [reflexivity|]. split; [|exact E].
      constructor. constructor.
    + intros (dirs & n & -> & Hloc & Hext).
      inversion Hloc as [? ? Hin|? ? ? ? ? Hin Hsub]; subst.
      * apply list_elem_of_singleton in Hin. inversion Hin; subst n.
        rewrite Hext. simpl. constructor.
      * apply list_elem_of_singleton in Hin. discriminate.
  - simpl. rewrite elem_of_flat_map. split.
    + intros (e & He & Hp).
      rewrite Forall_forall in IH. apply (IH e He) in Hp as (dirs & n & -> & Hloc & Hext).
      exists (name :: dirs), n. split; [rewrite <- app_assoc; reflexivity|].
      split; [|exact Hext].
      apply (located_below [Directory name sub] name sub); [constructor|].
      inversion Hloc as [? ? Hin|? d2 sub2 dirs2 ? Hin Hsub]; subst.
      * apply list_elem_of_singleton in Hin. subst e. constructor. exact He.
      * apply list_elem_of_singleton in Hin. subst e.
        apply (located_below sub d2 sub2); assumption.
    + intros (dirs & n & -> & Hloc & Hext).
      inversion Hloc as [? ? Hin|? ? ? ? ? Hin Hsub]; subst.
      * apply list_elem_of_singleton in Hin. discriminate.
      * apply list_elem_of_singleton in Hin. inversion Hin; subst.
        rewrite Forall_forall in IH.
        inversion Hsub as [? ? Hin'|? d2 sub2 dirs2 ? Hin' Hsub']; subst.
        -- exists (File n). split; [exact Hin'|].
           apply (IH _ Hin'). exists [], n.
           split; [rewrite <- app_assoc; reflexivity|]. split; [|exact Hext].
           constructor. constructor.
        -- exists (Directory d2 sub2). split; [exact Hin'|].
           apply (IH _ Hin'). exists (d2 :: dirs2), n.
           split; [rewrite <- app_assoc; reflexivity|]. split; [|exact Hext].
           apply (located_below _ d2 sub2); [constructor | exact Hsub'].
Qed.

Lemma located_single (entries : list Dirent) (dirs : list string) (name : string) :
  located entries dirs name <-> exists d, d ∈ entries /\ located [d] dirs name.
Proof.
  split.
  - intros H. inversion H as [? ? Hin|? d sub ? ? Hin Hsub]; subst.
    + exists (File name). split; [exact Hin|]. constructor. constructor.
    + exists (Directory d sub). split; [exact Hin|].
      apply (located_below _ d sub); [constructor | exact Hsub].
  - intros (d & Hd & H). inversion H as [? ? Hin|? d' sub ? ? Hin Hsub]; subst.
    + apply list_elem_of_singleton in Hin. subst d. constructor. exact Hd.
    + apply list_elem_of_singleton in Hin. subst d.
      apply (located_below _ d' sub); assumption.
Qed.

(** X13: [walk] yields exactly the paths of the entries that are not
    directories, lie in the directory or below it, and whose name ends,
    whatever the case of its letters, in .jpg, .jpeg, .png, .webp, .tif or
    .tiff; a directory is never yielded, whatever its name. *)
Theorem walk_yields_the_images (dir : Path) (entries : list Dirent) (p : Path) :
  p ∈ walk dir entries <->
  exists dirs name,
    p = dir ++ dirs ++ [name] /\ located entries dirs name /\ has_image_ext name = true.
Proof.
  unfold walk. rewrite elem_of_flat_map. split.
  - intros (d & Hd & Hp). apply walk_entry_spec in Hp as (dirs & name & -> & Hloc & Hext).
    exists dirs, name. split; [reflexivity|]. split; [|exact Hext].
    apply located_single. eauto.
  - intros (dirs & name & -> & Hloc & Hext).
    apply located_single in Hloc as (d & Hd & Hloc).
    exists d. split; [exact Hd|]. apply walk_entry_spec. eauto.
Qed.

Lemma walk_yields_the_images_witness :
  ["in"; "shoes"; "Left.JPeG"]%string ∈
    walk ["in"%string]
      [File "notes.txt"; Directory "shoes" [File "Left.JPeG"; File "left.jpg.bak"];
       Directory "old.png" []]%string.
Proof.
  apply (walk_yields_the_images ["in"%string]).
  exists ["shoes"%string], "Left.JPeG"%string.
  split; [reflexivity|]. split; [|vm_compute; reflexivity].
  apply (located_below _ "shoes"%string [File "Left.JPeG"; File "left.jpg.bak"]%string).
  - apply list_elem_of_In. simpl. auto.
  - constructor. apply list_elem_of_In. simpl. auto.
Defined.

Example walk_example :
  walk ["in"%string]
    [File "notes.txt"; Directory "shoes" [File "Left.JPeG"; File "left.jpg.bak"; File ".png"];
     Directory "old.png" [File "a.tif"; File "b.TIFF"; File "jpg"; File "c.webpx"]]%string
  = [["in"; "shoes"; "Left.JPeG"]; ["in"; "shoes"; ".png"];
     ["in"; "old.png"; "a.tif"]; ["in"; "old.png"; "b.TIFF"]]%string.
Proof. vm_compute. reflexivity. Qed.

Example is_url_examples :
  is_url "HTTP://example.com/a.jpg" = true /\ is_url "https://x" = true /\
  is_url "httpx://x" = false /\ is_url "in" = false /\ is_url " http://x" = false.
Proof. vm_compute. auto. Qed.

(** * The batch *)

Section MainFacts.
Variable processOne : Path -> result Path.
Variable downloadToTemp : string -> result Path.

Lemma batch_all_succeed (files : list Path) :
  forall n log,
    Forall (succeeds processOne) files ->
    exists outs,
      Forall2 (fun f out => processOne f = Ok out) files outs /\
      batch processOne files n log
        = (Done (n + length files), log ++ zip (LocalFile <$> files) outs).
Proof.
  induction files as [|f files IH]; intros n log Hall.
  - exists []. split; [constructor|]. simpl. rewrite app_nil_r, Nat.add_0_r. reflexivity.
  - inversion Hall as [|? ? [out Hout] Hrest]; subst.
    destruct (IH (S n) (log ++ [(LocalFile f, out)]) Hrest) as (outs & Hf2 & Hb).
    exists (out :: outs). split; [constructor; assumption|].
    simpl. rewrite Hout, Hb. rewrite <- app_assoc. simpl.
    f_equal. f_equal. lia.
Qed.

Lemma batch_app (done rest : list Path) :
  forall n log,
    Forall (succeeds processOne) done ->
    exists outs,
      Forall2 (fun f out => processOne f = Ok out) done outs /\
      batch processOne (done ++ rest) n log
        = batch processOne rest (n + length done) (log ++ zip (LocalFile <$> done) outs).
Proof.
  induction done as [|f done IH]; intros n log Hall.
  - exists []. split; [constructor|]. simpl. rewrite app_nil_r, Nat.add_0_r. reflexivity.
  - inversion Hall as [|? ? [out Hout] Hrest]; subst.
    destruct (IH (S n) (log ++ [(LocalFile f, out)]) Hrest) as (outs & Hf2 & Hb).
    exists (out :: outs). split; [constructor; assumption|].
    simpl. rewrite Hout, Hb. rewrite <- app_assoc. simpl.
    f_equal. lia.
Qed.

(** X14: in directory mode, when [processOne] succeeds on every file that
    [walk] yields, the run ends with "Done: n files" where n is the number
    of those files, having logged each of them with its own output path,
    in the order of the walk. *)
Theorem main_batch_completes (input : string) (dir : Path) (entries : list Dirent) :
  is_url input = false ->
  Forall (succeeds processOne) (walk dir entries) ->
  exists outs,
    Forall2 (fun f out => processOne f = Ok out) (walk dir entries) outs /\
    main processOne downloadToTemp input dir entries
      = (Done (length (walk dir entries)), zip (LocalFile <$> walk dir entries) outs).
Proof.
  intros Hurl Hall. unfold main. rewrite Hurl.
  destruct (batch_all_succeed (walk dir entries) 0%nat [] Hall) as (outs & Hf2 & Hb).
  exists outs. split; [exact Hf2|]. rewrite Hb. reflexivity.
Qed.

(** X15: in directory mode, the first file on which [processOne] throws
    ends the run with that exception unhandled: the files before it have
    been processed and logged, the files after it are not processed, and
    no "Done" line is printed. *)
Theorem main_batch_aborts_at_first_failure (input : string) (dir : Path)
    (entries : list Dirent) (done rest : list Path) (f : Path) (msg : string) :
  is_url input = false ->
  walk dir entries = done ++ f :: rest ->
  Forall (succeeds processOne) done ->
  processOne f = Throw msg ->
  exists outs,
    Forall2 (fun g out => processOne g = Ok out) done outs /\
    main processOne downloadToTemp input dir entries
      = (Unhandled msg, zip (LocalFile <$> done) outs).
Proof.
  intros Hurl Hwalk Hall Hfail. unfold main. rewrite Hurl, Hwalk.
  destruct (batch_app done (f :: rest) 0%nat [] Hall) as (outs & Hf2 & Hb).
  exists outs. split; [exact Hf2|]. rewrite Hb. simpl. rewrite Hfail. reflexivity.
Qed.

(** X16: in URL mode the directory is not read, and the run either
    processes the one downloaded file and ends with "Done: 1 files", or,
    when the download or the processing throws, exits with status 1
    having logged no success; no exception is left unhandled. *)
Theorem main_url_mode (input : string) (dir : Path) (entries : list Dirent) :
  is_url input = true ->
  (forall dir' entries',
     main processOne downloadToTemp input dir' entries'
     = main processOne downloadToTemp input dir entries) /\
  ((exists localFile out,
      downloadToTemp input = Ok localFile /\ processOne localFile = Ok out /\
      main processOne downloadToTemp input dir entries = (Done 1, [(Url input, out)])) \/
   (main processOne downloadToTemp input dir entries = (Exit1, []) /\
    ((exists msg, downloadToTemp input = Throw msg) \/
     (exists localFile msg,
        downloadToTemp input = Ok localFile /\ processOne localFile = Throw msg)))).
Proof.
  intros Hurl. unfold main. rewrite Hurl. split; [reflexivity|].
  destruct (downloadToTemp input) as [localFile|msg] eqn:Hd; cbn [mbind result_bind].
  - destruct (processOne localFile) as [out|msg] eqn:Hp.
    + left. exists localFile, out. auto.
    + right. split; [reflexivity|]. right. exists localFile, msg. auto.
  - right. split; [reflexivity|]. left. exists msg. reflexivity.
Qed.
End MainFacts.

Lemma main_batch_completes_witness :
  exists outs,
    Forall2 (fun f out => sample_processOne f = Ok out)
      (walk ["in"%string] clean_listing) outs /\
    main sample_processOne sample_download "in" ["in"%string] clean_listing
      = (Done (length (walk ["in"%string] clean_listing)),
         zip (LocalFile <$> walk ["in"%string] clean_listing) outs).
Proof.
  apply (main_batch_completes sample_processOne sample_download "in" ["in"%string]
           clean_listing).
  - vm_compute. reflexivity.
  - replace (walk ["in"%string] clean_listing)
      with [["in"; "a.jpg"]; ["in"; "sub"; "c.PNG"]]%string by (vm_compute; reflexivity).
    constructor; [exists ["out"; "a.webp"]%string; vm_compute; reflexivity|].
    constructor; [exists ["out"; "c.webp"]%string; vm_compute; reflexivity|].
    constructor.
Defined.

Lemma main_batch_aborts_at_first_failure_witness :
  exists outs,
    Forall2 (fun g out => sample_processOne g = Ok out) [["in"; "a.jpg"]%string] outs /\
    main sample_processOne sample_download "in" ["in"%string] listing_with_bad_file
      = (Unhandled "Input file contains unsupported image format",
         zip (LocalFile <$> [["in"; "a.jpg"]%string]) outs).
Proof.
  apply (main_batch_aborts_at_first_failure sample_processOne sample_download "in"
           ["in"%string] listing_with_bad_file [["in"; "a.jpg"]%string]
           [["in"; "sub"; "c.PNG"]; ["in"; "d.tiff"]]%string ["in"; "sub"; "bad.png"]%string).
  - vm_compute. reflexivity.
  - vm_compute. reflexivity.
  - constructor; [exists ["out"; "a.webp"]%string; vm_compute; reflexivity|].
    constructor.
  - vm_compute. reflexivity.
Defined.

Lemma main_url_mode_witness :
  main sample_processOne sample_download "https://example.com/photo.jpg" ["in"%string]
    clean_listing
  = main sample_processOne sample_download "https://example.com/photo.jpg" [] [].
Proof.
  apply (main_url_mode sample_processOne sample_download "https://example.com/photo.jpg"
           [] []).
  vm_compute. reflexivity.
Defined.

(** * Output name *)

Example outPath_examples :
  outPath ["out"] ["in"; "a"; "Shoe.JPG"] = ["out"; "Shoe.webp"] /\
  outPath ["out"] ["in"; "b.c.png"] = ["out"; "b.c.webp"] /\
  outPath ["out"] ["in"; ".png"] = ["out"; ".png.webp"] /\
  outPath ["out"] ["in"; "..png"] = ["out"; "..webp"] /\
  outPath ["out"] ["downloaded"; "downloaded_image"] = ["out"; "downloaded_image.webp"] /\
  outPath ["out"] ["downloaded"; "x."] = ["out"; "x.webp"] /\
  outPath ["out"] ["downloaded"; ".."] = ["out"; "...webp"].
Proof. vm_compute. repeat split. Qed.

Lemma lower_dot (c : ascii) : bool_decide (lower c = "."%char) = bool_decide (c = "."%char).
Proof.
  destruct c as [[] [] [] [] [] [] [] []]; vm_compute; reflexivity.
Qed.

Lemma last_dot_lower (l : list ascii) : last_dot (lower <$> l) = last_dot l.
Proof.
  induction l as [|c l IH]; [reflexivity|].
  rewrite fmap_cons. simpl. rewrite IH, lower_dot. reflexivity.
Qed.

Lemma last_dot_first (l : list ascii) :
  last_dot l = Some 0%nat -> exists r, l = "."%char :: r /\ last_dot r = None.
Proof.
  destruct l as [|c r]; simpl; [discriminate|].
  destruct (last_dot r) eqn:Hr; [discriminate|].
  destruct (bool_decide (c = "."%char)) eqn:E; [|discriminate].
  intros _. apply bool_decide_eq_true in E. subst c. eauto.
Qed.

Lemma last_dot_app (s r : list ascii) :
  last_dot r = None -> last_dot (s ++ "."%char :: r) = Some (length s).
Proof.
  intros Hr. induction s as [|c s IH]; simpl.
  - rewrite Hr. reflexivity.
  - rewrite IH. reflexivity.
Qed.

Lemma list_ascii_of_string_app (s t : string) :
  list_ascii_of_string (s +:+ t) = list_ascii_of_string s ++ list_ascii_of_string t.
Proof.
  induction s as [|c s IH]; simpl; [reflexivity|]. rewrite IH. reflexivity.
Qed.

Lemma string_of_list_ascii_app (a b : list ascii) :
  string_of_list_ascii (a ++ b) = (string_of_list_ascii a +:+ string_of_list_ascii b)%string.
Proof.
  induction a as [|c a IH]; simpl; [reflexivity|]. rewrite IH. reflexivity.
Qed.

(** An ending is a "." followed by at least three characters, none of
    them a ".". *)
Lemma ending_shape (e : string) :
  is_ending e ->
  exists r, list_ascii_of_string e = "."%char :: r /\ last_dot r = None /\ (3 <= length r)%nat.
Proof.
  unfold is_ending. intros H.
  set (le := list_ascii_of_string e) in *.
  assert (Hd : last_dot le = Some 0%nat /\ (4 <= length le)%nat).
  { rewrite <- last_dot_lower, <- (length_fmap lower le).
    rewrite <- (list_ascii_of_string_of_list_ascii (lower <$> le)).
    unfold image_extensions in H.
    repeat (apply elem_of_cons in H as [->|H]; [vm_compute; split; [reflexivity|lia]|]).
    inversion H. }
  destruct Hd as [Hd Hlen].
  destruct (last_dot_first le Hd) as (r & Er & Hr).
  exists r. rewrite Er in Hlen. simpl in Hlen. repeat split; [exact Er | exact Hr | lia].
Qed.

Lemma last_segment_snoc (dir : Path) (name : string) : last_segment (dir ++ [name]) = name.
Proof. unfold last_segment. apply last_last. Qed.

(** The output path of a file whose name is [stem] followed by an ending. *)
Lemma outPath_ending (output dir : Path) (stem e : string) :
  is_ending e ->
  outPath output (dir ++ [(stem +:+ e)%string])
  = output ++ [((if bool_decide (stem = ""%string) then e else stem) +:+ ".webp")%string].
Proof.
  intros He. destruct (ending_shape e He) as (r & Er & Hr & Hlen).
  unfold outPath. rewrite last_segment_snoc. f_equal. f_equal. f_equal.
  set (ls := list_ascii_of_string stem).
  assert (El : list_ascii_of_string (stem +:+ e) = ls ++ "."%char :: r).
  { rewrite list_ascii_of_string_app, Er. reflexivity. }
  unfold extname. rewrite El, (last_dot_app ls r Hr).
  destruct stem as [|c stem].
  - simpl. unfold basename. simpl. reflexivity.
  - replace (bool_decide (String c stem = ""%string)) with false
      by (symmetry; apply bool_decide_eq_false; discriminate).
    change (length ls) with (S (length (list_ascii_of_string stem))).
    cbv iota beta.
    replace (bool_decide ((String c stem +:+ e)%string = ".."%string)) with false.
    2:{ symmetry. apply bool_decide_eq_false. intros E.
        apply (f_equal list_ascii_of_string) in E. rewrite El in E.
        apply (f_equal length) in E. rewrite length_app in E. simpl in E. lia. }
    change (S (length (list_ascii_of_string stem))) with (length ls).
    rewrite drop_app_length.
    unfold basename. rewrite list_ascii_of_string_of_list_ascii, El.
    replace (bool_decide ("."%char :: r = [])) with false
      by (symmetry; apply bool_decide_eq_false; discriminate).
    replace (bool_decide ("."%char :: r = ls ++ "."%char :: r)) with false.
    2:{ symmetry. apply bool_decide_eq_false. intros E.
        apply (f_equal length) in E. rewrite length_app in E. simpl in E. lia. }
    replace (length (ls ++ "."%char :: r) - length ("."%char :: r))%nat with (length ls)
      by (rewrite length_app; lia).
    rewrite drop_app_length, take_app_length.
    replace ((length ("."%char :: r) <=? length (ls ++ "."%char :: r))%nat) with true
      by (symmetry; apply Nat.leb_le; rewrite length_app; lia).
    rewrite bool_decide_eq_true_2 by reflexivity. simpl.
    unfold ls. simpl. rewrite string_of_list_ascii_of_string. reflexivity.
Qed.

(** A name with an image ending splits into a stem and the ending. *)
Lemma has_image_ext_split (name : string) :
  has_image_ext name = true ->
  exists stem e, name = (stem +:+ e)%string /\ is_ending e.
Proof.
  unfold has_image_ext. intros H. apply existsb_exists in H as (ext & Hin & Hends).
  unfold ends_with_ci in Hends. apply andb_prop in Hends as [Hlen Heq].
  apply bool_decide_eq_true in Heq. cbv zeta in Heq.
  set (l := list_ascii_of_string name) in *.
  set (k := (length l - length (list_ascii_of_string ext))%nat) in *.
  exists (string_of_list_ascii (take k l)), (string_of_list_ascii (drop k l)).
  split.
  - rewrite <- string_of_list_ascii_app, take_drop. unfold l.
    rewrite string_of_list_ascii_of_string. reflexivity.
  - unfold is_ending. rewrite list_ascii_of_string_of_list_ascii, Heq.
    rewrite string_of_list_ascii_of_string. apply list_elem_of_In, Hin.
Qed.

(** X17: every file that [walk] yields (its name has an image ending) is
    written to OUTPUT under its name with the ending replaced by .webp;
    only a name that is nothing but the ending, such as ".png", keeps it
    and becomes ".png.webp". *)
Theorem output_name_replaces_the_ending (output dir : Path) (name : string) :
  has_image_ext name = true ->
  exists stem e,
    name = (stem +:+ e)%string /\ is_ending e /\
    outPath output (dir ++ [name])
    = output ++ [((if bool_decide (stem = ""%string) then name else stem) +:+ ".webp")%string].
Proof.
  intros H. destruct (has_image_ext_split name H) as (stem & e & -> & He).
  exists stem, e. split; [reflexivity|]. split; [exact He|].
  rewrite (outPath_ending output dir stem e He).
  destruct stem; reflexivity.
Qed.

Lemma output_name_replaces_the_ending_witness :
  exists stem e,
    "Left.Shoe.JPeG"%string = (stem +:+ e)%string /\ is_ending e /\
    outPath ["out"%string] (["in"; "shoes"]%string ++ ["Left.Shoe.JPeG"%string])
    = ["out"%string] ++
      [((if bool_decide (stem = ""%string) then "Left.Shoe.JPeG"%string else stem)
        +:+ ".webp")%string].
Proof.
  apply (output_name_replaces_the_ending ["out"%string] ["in"; "shoes"]%string
           "Left.Shoe.JPeG"%string).
  vm_compute. reflexivity.
Defined.

(** X18: the output path keeps neither the directory nor the ending of the
    input: two files with the same stem, in whatever directories and with
    whatever image endings, are written to the same output path, so that
    the later one replaces the earlier. *)
Theorem same_stem_same_output (output d1 d2 : Path) (stem e1 e2 : string) :
  stem <> ""%string -> is_ending e1 -> is_ending e2 ->
  outPath output (d1 ++ [(stem +:+ e1)%string]) = outPath output (d2 ++ [(stem +:+ e2)%string]).
Proof.
  intros Hs H1 H2.
  rewrite (outPath_ending output d1 stem e1 H1), (outPath_ending output d2 stem e2 H2).
  rewrite !bool_decide_eq_false_2 by exact Hs. reflexivity.
Qed.

Lemma same_stem_same_output_witness :
  outPath ["out"%string] (["in"; "a"]%string ++ [("shoe" +:+ ".jpg")%string])
  = outPath ["out"%string] (["in"; "b"]%string ++ [("shoe" +:+ ".PNG")%string]).
Proof.
  apply (same_stem_same_output ["out"%string] ["in"; "a"]%string ["in"; "b"]%string
           "shoe"%string ".jpg"%string ".PNG"%string).
  - discriminate.
  - vm_compute. apply list_elem_of_In. simpl. auto.
  - vm_compute. apply list_elem_of_In. simpl. auto 10.
Defined.

(** X19: when the plain call of the background remover throws, and, in HQ
    mode, the high-accuracy call before it throws as well, [processOne]
    throws the exception of the plain call: the exception of the
    high-accuracy call is dropped, and nothing is cropped or encoded. *)
Theorem remover_failure_surfaces
    (vips : Instance.Options -> Image -> result Image)
    (resample : Image -> Z -> Z -> Z -> Pixel) (over : Pixel -> Pixel -> Pixel)
    (RemoveOptions : Type) (hq_options : RemoveOptions)
    (removeBackground : string -> option RemoveOptions -> result Image)
    (cfg : Config) (env : Env) (file msg : string) :
  removeBackground file None = Throw msg ->
  (HQ cfg = true -> exists hq_msg, removeBackground file (Some hq_options) = Throw hq_msg) ->
  processOne vips resample over RemoveOptions hq_options removeBackground cfg env file
  = Throw msg.
Proof.
  intros Hplain Hhq. unfold processOne, removeBgToRGBA.
  destruct (HQ cfg).
  - destruct (Hhq eq_refl) as [hq_msg ->]. rewrite Hplain. reflexivity.
  - rewrite Hplain. reflexivity.
Qed.

Lemma remover_failure_surfaces_witness :
  processOne vips_identity white_resample overlay_wins unit tt always_failing_remover
    hq_config ∅ "in/photo.png" = Throw "cannot read in/photo.png".
Proof.
  apply (remover_failure_surfaces vips_identity white_resample overlay_wins unit tt
           always_failing_remover hq_config ∅ "in/photo.png" "cannot read in/photo.png").
  - reflexivity.
  - intros _. exists "model medium unavailable"%string. reflexivity.
Defined.
